(** * Shadowsocks AEAD tunnel (src/aead.go): model and verified properties

    The file embeds [aead.go] function by function.  Byte slices are lists
    of integers; a Go slice that shares the tunnel's scratch array is a
    window of that array, so that aliasing between [c.cache] and
    [c.buffer] is visible.  The collaborators the code receives through
    interfaces ([io.ReadWriter], [cipher.AEAD], [hkdf], [rand.Reader]) are
    parameters: records of functions or section variables. *)

From Stdlib Require Import ZArith List Lia Bool Arith PeanoNat.
Import ListNotations.

(** ** Bytes, errors, results *)

(** A byte is an integer; the code's wrap-around ([b[i]++], [byte(x)]) is
    written out with [mod 256] where it happens. *)
Abbreviation byte := Z (only parsing).

Definition is_byte (b : byte) : Prop := (0 <= b < 256)%Z.

(** [const MaxPayload = 0x3FFF] *)
Definition MaxPayload : nat := Z.to_nat 16383.

(** The error values that travel through the tunnel. *)
Inductive error : Type :=
| EOF                      (* io.EOF *)
| ErrUnexpectedEOF         (* io.ErrUnexpectedEOF *)
| ErrTooLarge              (* errors.New of write, line 152 *)
| ErrAuth                  (* the AEAD's authentication failure *)
| ErrOther (code : nat).   (* any other error of a collaborator *)

(** What a call does: it returns, it panics (a Go run-time panic or an
    explicit [panic]), or the model's loop bound ran out. *)
Inductive outcome (A : Type) : Type :=
| Ret (a : A)
| Panic
| OutOfFuel.

Arguments Ret {A} a.
Arguments Panic {A}.
Arguments OutOfFuel {A}.

Definition bind {A B} (m : outcome A) (k : A -> outcome B) : outcome B :=
  match m with
  | Ret a => k a
  | Panic => Panic
  | OutOfFuel => OutOfFuel
  end.

Notation "x <- m ;; k" := (bind m (fun x => k))
  (at level 61, m at next level, right associativity).

(** ** The collaborators *)

(** [cipher.AEAD], with the key fixed inside the instance and no
    additional data (the tunnel always passes [nil]).  [Seal nonce
    plaintext] is the sealed text, [Open nonce ciphertext] the plaintext
    or the error. *)
Module cipher.
Record AEAD : Type := {
  Overhead : nat;
  Seal : list byte -> list byte -> list byte;
  Open : list byte -> list byte -> list byte + error
}.

(** The contract of an AEAD that the round trip relies on. *)
Record lawful (a : AEAD) : Prop := {
  seal_length : forall n p, length (Seal a n p) = length p + Overhead a;
  open_seal : forall n p, Open a n (Seal a n p) = inl p
}.
End cipher.

(** The underlying [io.ReadWriter], as an in-memory connection with
    programmable faults: [rx] are the bytes still to arrive, [rx_err] what
    the stream reports once they are used up, [wlog] every [Write] call made
    so far with its result (oldest first), and [wfault k] the result of the
    call number [k]. *)
Record conn : Type := {
  rx : list byte;
  rx_err : error;
  wlog : list (list byte * option error);
  wfault : nat -> option error
}.

(** [rw.Write(data)]: one call, logged with its result. *)
Definition conn_Write (s : conn) (data : list byte) : option error * conn :=
  let r := wfault s (length (wlog s)) in
  (r, {| rx := rx s; rx_err := rx_err s;
         wlog := wlog s ++ [(data, r)]; wfault := wfault s |}).

(** [io.ReadFull(rw, buf)] with [len(buf) = m]: the bytes stored at the
    front of [buf] and the error.  Nothing is read for [m = 0]; a stream
    that ends early gives its error, [io.EOF] turned into
    [io.ErrUnexpectedEOF] when some bytes had arrived. *)
Definition io_ReadFull (s : conn) (m : nat) : list byte * option error * conn :=
  if m =? 0 then ([], None, s)
  else if m <=? length (rx s) then
    (firstn m (rx s), None,
     {| rx := skipn m (rx s); rx_err := rx_err s; wlog := wlog s; wfault := wfault s |})
  else
    (rx s,
     Some (match rx s, rx_err s with
           | _ :: _, EOF => ErrUnexpectedEOF
           | _, e => e
           end),
     {| rx := []; rx_err := rx_err s; wlog := wlog s; wfault := wfault s |}).

(** The wire bytes a connection has accepted: the data of the calls that
    succeeded, in order. *)
Definition wire (l : list (list byte * option error)) : list byte :=
  concat (map (fun e => match snd e with None => fst e | Some _ => [] end) l).

(** ** Slices of the scratch array *)

(** A slice into the tunnel's scratch array: elements [lo .. hi-1]. *)
Record slice : Type := { lo : nat; hi : nat }.

Definition slice_len (w : slice) : nat := hi w - lo w.

Definition slice_bytes (buf : list byte) (w : slice) : list byte :=
  firstn (slice_len w) (skipn (lo w) buf).

(** [append(buf[:dst], data...)] as the AEAD does it for its [dst]
    argument: when the array has room after [dst] the bytes land in the
    array, otherwise fresh storage is allocated and the array stays as it
    was. *)
Definition slice_append (buf : list byte) (dst : nat) (data : list byte) : list byte :=
  if dst + length data <=? length buf
  then firstn dst buf ++ data ++ skipn (dst + length data) buf
  else buf.

(** ** The tunnel *)

Record aeadTunnel : Type := {
  ReadWriter : conn;
  RAEAD : cipher.AEAD;
  WAEAD : cipher.AEAD;
  RNonce : list byte;
  WNonce : list byte;
  buffer : list byte;
  cache : slice;
  subKey : list byte
}.

Definition with_ReadWriter (c : aeadTunnel) (s : conn) : aeadTunnel :=
  {| ReadWriter := s; RAEAD := RAEAD c; WAEAD := WAEAD c; RNonce := RNonce c;
     WNonce := WNonce c; buffer := buffer c; cache := cache c; subKey := subKey c |}.

Definition with_RNonce (c : aeadTunnel) (n : list byte) : aeadTunnel :=
  {| ReadWriter := ReadWriter c; RAEAD := RAEAD c; WAEAD := WAEAD c; RNonce := n;
     WNonce := WNonce c; buffer := buffer c; cache := cache c; subKey := subKey c |}.

Definition with_WNonce (c : aeadTunnel) (n : list byte) : aeadTunnel :=
  {| ReadWriter := ReadWriter c; RAEAD := RAEAD c; WAEAD := WAEAD c; RNonce := RNonce c;
     WNonce := n; buffer := buffer c; cache := cache c; subKey := subKey c |}.

Definition with_buffer (c : aeadTunnel) (b : list byte) : aeadTunnel :=
  {| ReadWriter := ReadWriter c; RAEAD := RAEAD c; WAEAD := WAEAD c; RNonce := RNonce c;
     WNonce := WNonce c; buffer := b; cache := cache c; subKey := subKey c |}.

Definition with_cache (c : aeadTunnel) (w : slice) : aeadTunnel :=
  {| ReadWriter := ReadWriter c; RAEAD := RAEAD c; WAEAD := WAEAD c; RNonce := RNonce c;
     WNonce := WNonce c; buffer := buffer c; cache := w; subKey := subKey c |}.

(** The bytes [c.cache] denotes at this moment. *)
Definition cache_bytes (c : aeadTunnel) : list byte := slice_bytes (buffer c) (cache c).

(** [increment]: add one to a little-endian counter, wrapping around. *)
Fixpoint increment (b : list byte) : list byte :=
  match b with
  | [] => []
  | x :: rest =>
      let x' := ((x + 1) mod 256)%Z in
      if (x' =? 0)%Z then x' :: increment rest else x' :: rest
  end.

(** [aeadTunnel.Open(dst, ciphertext)] with [dst = c.buffer[:dst]], a
    prefix of the scratch array as every call of this file passes it.  The
    AEAD appends the plaintext to [dst] and returns the extended slice:
    the bytes of [dst] followed by the plaintext.  The deferred
    [increment] runs whatever the AEAD returns.  What a failed [Open]
    leaves in [dst] is the AEAD's own business; every caller overwrites
    that region before it reads it, and the model leaves the array as it
    was. *)
Definition Open (c : aeadTunnel) (dst : nat) (ciphertext : list byte)
  : (list byte + error) * aeadTunnel :=
  let r := cipher.Open (RAEAD c) (RNonce c) ciphertext in
  let c1 := match r with
            | inl pt => with_buffer c (slice_append (buffer c) dst pt)
            | inr _ => c
            end in
  (match r with
   | inl pt => inl (firstn dst (buffer c) ++ pt)
   | inr e => inr e
   end,
   with_RNonce c1 (increment (RNonce c1))).

(** [aeadTunnel.Seal(dst, plaintext)] with [dst = c.buffer[:dst]]: the
    AEAD appends the sealed text to [dst] and returns the extended slice,
    the bytes of [dst] followed by the sealed text. *)
Definition Seal (c : aeadTunnel) (dst : nat) (plaintext : list byte)
  : list byte * aeadTunnel :=
  let ct := cipher.Seal (WAEAD c) (WNonce c) plaintext in
  let c1 := with_buffer c (slice_append (buffer c) dst ct) in
  (firstn dst (buffer c) ++ ct, with_WNonce c1 (increment (WNonce c1))).

(** [(int(raw[0])<<8 + int(raw[1])) & MaxPayload] *)
Definition frame_size (b0 b1 : byte) : Z :=
  Z.land (Z.shiftl b0 8 + b1) (Z.of_nat MaxPayload).

(** [[]byte{byte(size >> 8), byte(size)}] *)
Definition size_header (size : nat) : list byte :=
  [ (Z.shiftr (Z.of_nat size) 8 mod 256)%Z ; (Z.of_nat size mod 256)%Z ].

(** [io.ReadFull(c.ReadWriter, c.buffer[0:m])] *)
Definition fill (c : aeadTunnel) (m : nat) : option error * aeadTunnel :=
  let '(data, err, s) := io_ReadFull (ReadWriter c) m in
  (err, with_ReadWriter (with_buffer c (data ++ skipn (length data) (buffer c))) s).

(** [aeadTunnel.Read(p)] with [len(p) = plen].  The result is the bytes
    stored in [p[0:n]], the error, and the tunnel afterwards.  [len(c.cache)]
    is the length of the slice header; [c.cache = c.cache[n:]] moves its
    start. *)
Definition Read (c : aeadTunnel) (plen : nat)
  : outcome (list byte * option error * aeadTunnel) :=
  let cached := 0 <? slice_len (cache c) in
  let n := if cached then Nat.min plen (slice_len (cache c)) else 0 in
  let out := firstn n (cache_bytes c) in
  let c := if cached
           then with_cache c {| lo := lo (cache c) + n; hi := hi (cache c) |}
           else c in
  if cached && (n =? plen) then Ret (out, None, c) else
  let ov := cipher.Overhead (RAEAD c) in
  if length (buffer c) <? 2 + ov then Panic else
  let '(err, c) := fill c (2 + ov) in
  match err with Some e => Ret (out, Some e, c) | None =>
  let '(r, c) := Open c 0 (firstn (2 + ov) (buffer c)) in
  match r with inr e => Ret (out, Some e, c) | inl _ =>
  let size := Z.to_nat (frame_size (nth 0 (buffer c) 0%Z) (nth 1 (buffer c) 0%Z)) in
  if length (buffer c) <? size + ov then Panic else
  let '(err, c) := fill c (size + ov) in
  match err with Some e => Ret (out, Some e, c) | None =>
  let '(r, c) := Open c 0 (firstn (size + ov) (buffer c)) in
  match r with inr e => Ret (out, Some e, c) | inl _ =>
  let raw := firstn size (buffer c) in
  let nn := Nat.min (plen - n) (length raw) in
  let c := if 0 <? length raw - nn
           then with_cache c {| lo := nn; hi := length raw |}
           else c in
  Ret (out ++ firstn nn raw, None, c)
  end end end end.

(** [aeadTunnel.write(p)]: one chunk. *)
Definition write (c : aeadTunnel) (p : list byte)
  : outcome (nat * option error * aeadTunnel) :=
  if MaxPayload <? length p then Ret (0, Some ErrTooLarge, c) else
  let size := length p in
  let ov := cipher.Overhead (WAEAD c) in
  if length (buffer c) <? 2 + ov + size + ov then Panic else
  let '(_, c) := Seal c 0 (size_header size) in
  let '(_, c) := Seal c (2 + cipher.Overhead (WAEAD c)) p in
  let raw := firstn (2 + ov + size + ov) (buffer c) in
  let '(err, s) := conn_Write (ReadWriter c) raw in
  let c := with_ReadWriter c s in
  match err with
  | Some e => Ret (0, Some e, c)
  | None => Ret (size, None, c)
  end.

(** The loop of [aeadTunnel.Write]; [i] and [n] are the loop's variables,
    [fuel] bounds the number of iterations. *)
Fixpoint Write_loop (fuel i n : nat) (c : aeadTunnel) (p : list byte)
  : outcome (nat * option error * aeadTunnel) :=
  if i * MaxPayload <? length p then
    match fuel with
    | 0 => OutOfFuel
    | S fuel' =>
        let end_ := if length p <? (i + 1) * MaxPayload
                    then length p else (i + 1) * MaxPayload in
        r <- write c (firstn (end_ - i * MaxPayload) (skipn (i * MaxPayload) p)) ;;
        let '(nn, err, c) := r in
        match err with
        | Some e => Ret (n + nn, Some e, c)
        | None => Write_loop fuel' (i + 1) (n + nn) c p
        end
    end
  else Ret (n, None, c).

(** [aeadTunnel.Write(p)] *)
Definition Write (c : aeadTunnel) (p : list byte)
  : outcome (nat * option error * aeadTunnel) :=
  Write_loop (length p) 0 0 c p.

(** ** The handshake *)

Section Handshake.

(** [cipher.Block], whatever the suite's block cipher is. *)
Variable Block : Type.

(** [type aead struct]: the suite descriptor with the shared secret. *)
Record aead : Type := {
  key : list byte;
  KeySize : nat;
  SaltSize : nat;
  NonceSize : nat;
  TagSize : nat;
  NewCipher : list byte -> Block + error;
  NewAEAD : Block -> cipher.AEAD + error
}.

(** [io.ReadFull(hkdf.New(sha1.New, secret, salt, info), outkey)] with
    [len(outkey) = n]: the bytes obtained and the error.  The library is
    not part of the repository. *)
Variable hkdf_ReadFull : list byte -> list byte -> list byte -> nat -> list byte * option error.

(** [io.ReadFull(rand.Reader, buf)] with [len(buf) = n]. *)
Variable rand_ReadFull : nat -> list byte * option error.

(** [hkdfSHA1(secret, salt, info, outkey)]: the new contents of
    [outkey], or the panic of line 179. *)
Definition hkdfSHA1 (secret salt info : list byte) (outlen : nat) : outcome (list byte) :=
  match hkdf_ReadFull secret salt info outlen with
  | (k, None) => Ret k
  | (_, Some _) => Panic
  end.

(** [[]byte("ss-subkey")] *)
Definition ss_subkey : list byte := [115; 115; 45; 115; 117; 98; 107; 101; 121]%Z.

(** [aead.Shadow(rw)]: the tunnel, or the error with the connection as
    the call left it. *)
Definition Shadow (p : aead) (rw : conn) : outcome (aeadTunnel + error * conn) :=
  let '(salt, err, rw) := io_ReadFull rw (SaltSize p) in
  match err with Some e => Ret (inr (e, rw)) | None =>
  key1 <- hkdfSHA1 (key p) salt ss_subkey (KeySize p) ;;
  match NewCipher p key1 with inr e => Ret (inr (e, rw)) | inl block =>
  match NewAEAD p block with inr e => Ret (inr (e, rw)) | inl AEADClient =>
  let '(salt, err) := rand_ReadFull (SaltSize p) in
  match err with Some e => Ret (inr (e, rw)) | None =>
  let '(err, rw) := conn_Write rw salt in
  match err with Some e => Ret (inr (e, rw)) | None =>
  key2 <- hkdfSHA1 (key p) salt ss_subkey (KeySize p) ;;
  match NewCipher p key2 with inr e => Ret (inr (e, rw)) | inl block =>
  match NewAEAD p block with inr e => Ret (inr (e, rw)) | inl AEADServer =>
  Ret (inl {| ReadWriter := rw;
              RAEAD := AEADClient;
              WAEAD := AEADServer;
              RNonce := repeat 0%Z (NonceSize p);
              WNonce := repeat 0%Z (NonceSize p);
              buffer := repeat 0%Z (2 + cipher.Overhead AEADClient + MaxPayload
                                    + cipher.Overhead AEADClient);
              cache := {| lo := 0; hi := 0 |};
              subKey := [] |})
  end end end end end end end.

End Handshake.

Arguments key {Block} _.
Arguments KeySize {Block} _.
Arguments SaltSize {Block} _.
Arguments NonceSize {Block} _.
Arguments TagSize {Block} _.
Arguments NewCipher {Block} _ _.
Arguments NewAEAD {Block} _ _.
Arguments Shadow {Block} _ _ _ _.

(** ** Reading a counter *)

(** A byte sequence read as a little-endian unsigned integer. *)
Fixpoint le_value (b : list byte) : Z :=
  match b with
  | [] => 0
  | x :: rest => x + 256 * le_value rest
  end.

(** [k] calls in a row. *)
Fixpoint iter (k : nat) {A} (f : A -> A) (x : A) : A :=
  match k with
  | 0 => x
  | S k' => iter k' f (f x)
  end.

(** ** A small cipher suite for running the code

    A keyed stream cipher with a two-byte checksum: enough of an AEAD to
    evaluate the tunnel on concrete bytes.  Nothing below depends on it
    except the evaluations at concrete inputs. *)

Module Toy.

Definition pad (k : Z) (nonce : list byte) : Z := ((k + le_value nonce) mod 256)%Z.

Definition tag (k : Z) (nonce body : list byte) : list byte :=
  [ (fold_right Z.add (pad k nonce) body mod 256)%Z ; (Z.of_nat (length body) mod 256)%Z ].

Definition seal (k : Z) (nonce plaintext : list byte) : list byte :=
  let body := map (Z.lxor (pad k nonce)) plaintext in
  body ++ tag k nonce body.

Definition open (k : Z) (nonce ciphertext : list byte) : list byte + error :=
  if length ciphertext <? 2 then inr ErrAuth else
  let body := firstn (length ciphertext - 2) ciphertext in
  if list_eq_dec Z.eq_dec (skipn (length ciphertext - 2) ciphertext) (tag k nonce body)
  then inl (map (Z.lxor (pad k nonce)) body)
  else inr ErrAuth.

Definition suite (k : Z) : cipher.AEAD :=
  {| cipher.Overhead := 2; cipher.Seal := seal k; cipher.Open := open k |}.

(** A connection that holds [bytes] to read and accepts every write. *)
Definition pipe (bytes : list byte) : conn :=
  {| rx := bytes; rx_err := EOF; wlog := []; wfault := fun _ => None |}.

(** A connection whose write number [k] fails. *)
Definition broken_pipe (k : nat) : conn :=
  {| rx := []; rx_err := EOF; wlog := [];
     wfault := fun j => if j =? k then Some (ErrOther 1) else None |}.

(** A tunnel as [Shadow] builds it, both directions under key [k]. *)
Definition tunnel (k : Z) (s : conn) : aeadTunnel :=
  {| ReadWriter := s;
     RAEAD := suite k;
     WAEAD := suite k;
     RNonce := repeat 0%Z 12;
     WNonce := repeat 0%Z 12;
     buffer := repeat 0%Z (2 + 2 + MaxPayload + 2);
     cache := {| lo := 0; hi := 0 |};
     subKey := [] |}.

(** Stand-ins for the libraries of the handshake.  The key derivation
    gives up beyond 255 hash lengths (255 * 20 bytes for SHA-1), as HKDF
    does; the block cipher refuses an empty key. *)
Definition hkdf (secret salt info : list byte) (n : nat) : list byte * option error :=
  let v := (fold_right Z.add 0 (secret ++ salt ++ info) mod 256)%Z in
  if n <=? 255 * 20 then (repeat v n, None)
  else (repeat v (255 * 20), Some (ErrOther 2)).

Definition rand (n : nat) : list byte * option error := (repeat 42%Z n, None).

Definition descriptor (keysize : nat) : aead (list byte) :=
  {| key := [1; 2; 3]%Z;
     KeySize := keysize;
     SaltSize := 4;
     NonceSize := 12;
     TagSize := 2;
     NewCipher := fun k => match k with [] => inr (ErrOther 3) | _ => inl k end;
     NewAEAD := fun block => inl (suite (hd 0%Z block)) |}.

End Toy.

(** ** Vocabulary of the statements *)

(** The scratch array can hold a full chunk of the write direction. *)
Definition room (c : aeadTunnel) : Prop :=
  2 + cipher.Overhead (WAEAD c) + MaxPayload + cipher.Overhead (WAEAD c)
  <= length (buffer c).

Definition write_buffer (c : aeadTunnel) (p : list byte) : list byte :=
  slice_append
    (slice_append (buffer c) 0 (cipher.Seal (WAEAD c) (WNonce c) (size_header (length p))))
    (2 + cipher.Overhead (WAEAD c))
    (cipher.Seal (WAEAD c) (increment (WNonce c)) p).

Definition write_chunk (c : aeadTunnel) (p : list byte) : list byte :=
  firstn (2 + cipher.Overhead (WAEAD c) + length p + cipher.Overhead (WAEAD c))
         (write_buffer c p).

(** The tunnel after [write] has sealed [p] and handed the chunk to the
    connection. *)
Definition after_write (c : aeadTunnel) (p : list byte) : aeadTunnel :=
  {| ReadWriter := snd (conn_Write (ReadWriter c) (write_chunk c p));
     RAEAD := RAEAD c;
     WAEAD := WAEAD c;
     RNonce := RNonce c;
     WNonce := increment (increment (WNonce c));
     buffer := write_buffer c p;
     cache := cache c;
     subKey := subKey c |}.

(** [ceil(L / 0x3FFF)] *)
Definition chunk_count (L : nat) : nat := (L + MaxPayload - 1) / MaxPayload.

(** The wire format of [k] consecutive pieces of [rest], sealed with the
    counter values [nonce], [nonce + 1], ...: per piece the sealed two-byte
    length, then the sealed payload. *)
Fixpoint encode (k : nat) (a : cipher.AEAD) (nonce rest : list byte) : list (list byte) :=
  match k with
  | 0 => []
  | S k' =>
      let piece := firstn MaxPayload rest in
      (cipher.Seal a nonce (size_header (length piece))
       ++ cipher.Seal a (increment nonce) piece)
      :: encode k' a (increment (increment nonce)) (skipn MaxPayload rest)
  end.

Definition all_ok (chunks : list (list byte)) : list (list byte * option error) :=
  map (fun ch => (ch, @None error)) chunks.

(** No write of the connection fails from call number [from] on. *)
Definition healthy_from (s : conn) (from : nat) : Prop :=
  forall j, from <= j -> wfault s j = None.

(** The pieces [Write] cuts its argument into. *)
Fixpoint split_pieces (k : nat) (rest : list byte) : list (list byte) :=
  match k with
  | 0 => []
  | S k' => firstn MaxPayload rest :: split_pieces k' (skipn MaxPayload rest)
  end.

Definition pieces (p : list byte) : list (list byte) :=
  split_pieces (chunk_count (length p)) p.

(** Lines 106 to 132 of [Read]: one frame is taken from the connection;
    [out] are the bytes already stored in [p] and [space] is what is left
    of [p] behind them. *)
Definition next_frame (c : aeadTunnel) (out : list byte) (space : nat)
  : outcome (list byte * option error * aeadTunnel) :=
  let ov := cipher.Overhead (RAEAD c) in
  if length (buffer c) <? 2 + ov then Panic else
  let '(err, c) := fill c (2 + ov) in
  match err with Some e => Ret (out, Some e, c) | None =>
  let '(r, c) := Open c 0 (firstn (2 + ov) (buffer c)) in
  match r with inr e => Ret (out, Some e, c) | inl _ =>
  let size := Z.to_nat (frame_size (nth 0 (buffer c) 0%Z) (nth 1 (buffer c) 0%Z)) in
  if length (buffer c) <? size + ov then Panic else
  let '(err, c) := fill c (size + ov) in
  match err with Some e => Ret (out, Some e, c) | None =>
  let '(r, c) := Open c 0 (firstn (size + ov) (buffer c)) in
  match r with inr e => Ret (out, Some e, c) | inl _ =>
  let raw := firstn size (buffer c) in
  let nn := Nat.min space (length raw) in
  let c := if 0 <? length raw - nn
           then with_cache c {| lo := nn; hi := length raw |}
           else c in
  Ret (out ++ firstn nn raw, None, c)
  end end end end.

(** [c.cache = c.cache[n:]] *)
Definition advance (c : aeadTunnel) (n : nat) : aeadTunnel :=
  with_cache c {| lo := lo (cache c) + n; hi := hi (cache c) |}.

(** The scratch array can hold a full chunk of the read direction. *)
Definition read_room (c : aeadTunnel) : Prop :=
  2 + cipher.Overhead (RAEAD c) + MaxPayload + cipher.Overhead (RAEAD c)
  <= length (buffer c).

(** Two tunnels that differ at most in the scratch array, the read
    counter, the cache and what is left to read. *)
Definition same_write_side (c c' : aeadTunnel) : Prop :=
  RAEAD c' = RAEAD c /\ WAEAD c' = WAEAD c /\ WNonce c' = WNonce c
  /\ rx_err (ReadWriter c') = rx_err (ReadWriter c)
  /\ wlog (ReadWriter c') = wlog (ReadWriter c)
  /\ wfault (ReadWriter c') = wfault (ReadWriter c)
  /\ length (buffer c') = length (buffer c).

(** [in_sync a c body]: tunnel [c] reads with AEAD [a], and what is still
    to arrive on its connection is exactly the wire format of [body],
    sealed from the tunnel's current read counter on. *)
Record in_sync (a : cipher.AEAD) (c : aeadTunnel) (body : list byte) : Prop := {
  sync_aead : RAEAD c = a;
  sync_room : read_room c;
  sync_eof : rx_err (ReadWriter c) = EOF;
  sync_cache : slice_len (cache c) = length (cache_bytes c);
  sync_rx : rx (ReadWriter c)
            = concat (encode (chunk_count (length body)) a (RNonce c) body)
}.

(** Successive [Read] calls with buffers of the given sizes, up to the
    first error; the bytes obtained, in the order they were obtained. *)
Fixpoint Reads (c : aeadTunnel) (sizes : list nat)
  : outcome (list byte * option error * aeadTunnel) :=
  match sizes with
  | [] => Ret ([], None, c)
  | plen :: sizes' =>
      r <- Read c plen ;;
      let '(out, err, c) := r in
      match err with
      | Some e => Ret (out, Some e, c)
      | None =>
          r' <- Reads c sizes' ;;
          let '(out', err', c') := r' in
          Ret (out ++ out', err', c')
      end
  end.

(** A tunnel with [bytes] left over in its cache, as a [Read] leaves it. *)
Definition with_leftover (c : aeadTunnel) (bytes : list byte) : aeadTunnel :=
  with_cache (with_buffer c (slice_append (buffer c) 0 bytes))
             {| lo := 0; hi := length bytes |}.

(** Calls of [Open] in a row, each with its [dst] and ciphertext. *)
Fixpoint Opens (c : aeadTunnel) (calls : list (nat * list byte)) : aeadTunnel :=
  match calls with
  | [] => c
  | (dst, ct) :: calls' => Opens (snd (Open c dst ct)) calls'
  end.

(** Calls of [Seal] in a row. *)
Fixpoint Seals (c : aeadTunnel) (calls : list (nat * list byte)) : aeadTunnel :=
  match calls with
  | [] => c
  | (dst, pt) :: calls' => Seals (snd (Seal c dst pt)) calls'
  end.

(** The tunnel with another read direction, and with another write
    direction. *)
Definition set_read_side (c : aeadTunnel) (rn : list byte) (ra : cipher.AEAD) (w : slice)
  : aeadTunnel :=
  {| ReadWriter := ReadWriter c; RAEAD := ra; WAEAD := WAEAD c; RNonce := rn;
     WNonce := WNonce c; buffer := buffer c; cache := w; subKey := subKey c |}.

Definition set_write_side (c : aeadTunnel) (wn : list byte) (wa : cipher.AEAD)
  : aeadTunnel :=
  {| ReadWriter := ReadWriter c; RAEAD := RAEAD c; WAEAD := wa; RNonce := RNonce c;
     WNonce := wn; buffer := buffer c; cache := cache c; subKey := subKey c |}.

(** The same result with the tunnel changed by [f]. *)
Definition lift {A} (f : aeadTunnel -> aeadTunnel)
           (r : outcome (A * option error * aeadTunnel))
  : outcome (A * option error * aeadTunnel) :=
  match r with
  | Ret (a, e, c) => Ret (a, e, f c)
  | Panic => Panic
  | OutOfFuel => OutOfFuel
  end.

(** What [Read] leaves alone in the write direction. *)
Definition write_side_kept (c c' : aeadTunnel) : Prop :=
  WNonce c' = WNonce c /\ WAEAD c' = WAEAD c
  /\ wlog (ReadWriter c') = wlog (ReadWriter c).

(** What [Write] leaves alone in the read direction: the counter, the
    AEAD, the bounds of the cache, the bytes still to arrive.  The bytes
    the cache denotes are not in this list: they lie in the scratch array
    that [write] seals into. *)
Definition read_side_kept (c c' : aeadTunnel) : Prop :=
  RNonce c' = RNonce c /\ RAEAD c' = RAEAD c /\ cache c' = cache c
  /\ rx (ReadWriter c') = rx (ReadWriter c)
  /\ WAEAD c' = WAEAD c.

(** The cache lies within the scratch array and holds at most one
    payload. *)
Definition cache_ok (c : aeadTunnel) : Prop :=
  hi (cache c) <= length (buffer c) /\ slice_len (cache c) <= MaxPayload.

(** The calls of the connection's [Write] made between two states of a
    tunnel. *)
Definition calls_made (c c' : aeadTunnel) : nat :=
  length (wlog (ReadWriter c')) - length (wlog (ReadWriter c)).

(** The chunks for a list of pieces: per piece the sealed length and the
    sealed payload, the counter moving by two. *)
Fixpoint seal_pieces (a : cipher.AEAD) (nonce : list byte) (ps : list (list byte))
  : list (list byte) :=
  match ps with
  | [] => []
  | q :: ps' =>
      (cipher.Seal a nonce (size_header (length q)) ++ cipher.Seal a (increment nonce) q)
      :: seal_pieces a (increment (increment nonce)) ps'
  end.

(** The connection as [Shadow] leaves it, in the tunnel or beside the
    error. *)
Definition conn_of (r : aeadTunnel + error * conn) : conn :=
  match r with
  | inl t => ReadWriter t
  | inr (_, rw) => rw
  end.

(** The calls of [c.Open] that a [Read] which returns has executed
    (lines 111 and 123), along the statements of [Read]: none when the
    cache covers the request or the length field does not arrive, one
    when the length field is rejected or the payload does not arrive, two
    when the payload is reached. *)
Definition Read_opens (c : aeadTunnel) (plen : nat) : nat :=
  let cached := 0 <? slice_len (cache c) in
  let n := if cached then Nat.min plen (slice_len (cache c)) else 0 in
  let c := if cached
           then with_cache c {| lo := lo (cache c) + n; hi := hi (cache c) |}
           else c in
  if cached && (n =? plen) then 0 else
  let ov := cipher.Overhead (RAEAD c) in
  let '(err, c) := fill c (2 + ov) in
  match err with Some _ => 0 | None =>
  let '(r, c) := Open c 0 (firstn (2 + ov) (buffer c)) in
  match r with inr _ => 1 | inl _ =>
  let size := Z.to_nat (frame_size (nth 0 (buffer c) 0%Z) (nth 1 (buffer c) 0%Z)) in
  let '(err, c) := fill c (size + ov) in
  match err with Some _ => 1 | None => 2 end
  end end.

(** What a user does with a tunnel. *)
Inductive call : Type :=
| call_Read (plen : nat)
| call_Write (p : list byte).

(** A tunnel's life: calls of [Read] and [Write] in any order, each made
    whatever the one before returned.  Beside the tunnel at the end: the
    calls of [c.Open] made on the way, and the calls of [c.Seal], two for
    every chunk handed to the connection. *)
Fixpoint life (c : aeadTunnel) (calls : list call) : outcome (nat * nat * aeadTunnel) :=
  match calls with
  | [] => Ret (0, 0, c)
  | call_Read plen :: calls' =>
      r <- Read c plen ;;
      let '(_, _, c1) := r in
      r' <- life c1 calls' ;;
      let '(opens, seals, c2) := r' in
      Ret (Read_opens c plen + opens, seals, c2)
  | call_Write p :: calls' =>
      r <- Write c p ;;
      let '(_, _, c1) := r in
      r' <- life c1 calls' ;;
      let '(opens, seals, c2) := r' in
      Ret (opens, 2 * calls_made c c1 + seals, c2)
  end.

(** The steps of [Shadow] before it sends anything: the peer's salt has
    arrived, the first key, block cipher and AEAD were made, and the
    random source has given [salt2]. *)
Definition ready_to_send {Block : Type}
           (hk : list byte -> list byte -> list byte -> nat -> list byte * option error)
           (rnd : nat -> list byte * option error)
           (p : aead Block) (rw : conn) (salt2 : list byte) : Prop :=
  exists salt rw1 k1 b1 a1,
    io_ReadFull rw (SaltSize p) = (salt, None, rw1)
    /\ hk (key p) salt ss_subkey (KeySize p) = (k1, None)
    /\ NewCipher p k1 = inl b1
    /\ NewAEAD p b1 = inl a1
    /\ rnd (SaltSize p) = (salt2, None).

(** Bytes for running the code: one chunk under the small suite, and a
    connection that holds bytes and refuses its write number [k]. *)
Module Fixture.
Definition chunk (k : Z) (nonce payload : list byte) : list byte :=
  cipher.Seal (Toy.suite k) nonce (size_header (length payload))
  ++ cipher.Seal (Toy.suite k) (increment nonce) payload.

Definition failing_pipe (bytes : list byte) (k : nat) : conn :=
  {| rx := bytes; rx_err := EOF; wlog := [];
     wfault := fun j => if j =? k then Some (ErrOther 1) else None |}.
End Fixture.

(** ** Tactics *)

(** Reduce the projections of a tunnel that was built by the setters. *)
Ltac proj_step :=
  cbn [set_write_side RAEAD WAEAD RNonce WNonce buffer ReadWriter cache subKey
       with_buffer with_ReadWriter with_RNonce with_WNonce with_cache lift].

(** Reduce the projections of a tunnel and of its connection. *)
Ltac tunnel_fields :=
  cbn [RAEAD WAEAD RNonce WNonce buffer ReadWriter cache subKey rx rx_err wlog wfault
       with_buffer with_ReadWriter with_RNonce with_WNonce with_cache fst snd].

(** * Properties *)

(** ** Arithmetic of the constants *)

Lemma MaxPayload_Z : Z.of_nat MaxPayload = 16383%Z.
Proof. reflexivity. Qed.

Lemma MaxPayload_pos : 0 < MaxPayload.
Proof. apply Nat2Z.inj_lt. rewrite MaxPayload_Z. reflexivity. Qed.

Global Opaque MaxPayload.

(** The mask keeps the low fourteen bits. *)
Lemma frame_size_mod (b0 b1 : byte) :
  frame_size b0 b1 = ((b0 * 256 + b1) mod 16384)%Z.
Proof.
  unfold frame_size. rewrite MaxPayload_Z.
  change 16383%Z with (Z.ones 14).
  rewrite Z.land_ones by lia.
  rewrite Z.shiftl_mul_pow2 by lia.
  reflexivity.
Qed.

Lemma frame_size_bounds (b0 b1 : byte) :
  (0 <= frame_size b0 b1 <= 16383)%Z.
Proof.
  rewrite frame_size_mod.
  pose proof (Z.mod_pos_bound (b0 * 256 + b1) 16384 ltac:(lia)). lia.
Qed.

(** The header written for a legal size decodes to that size. *)
Lemma frame_size_header (size : nat) :
  size <= MaxPayload ->
  frame_size (nth 0 (size_header size) 0%Z) (nth 1 (size_header size) 0%Z)
  = Z.of_nat size.
Proof.
  intros Hle. apply Nat2Z.inj_le in Hle. rewrite MaxPayload_Z in Hle.
  rewrite frame_size_mod. cbn [size_header nth].
  rewrite Z.shiftr_div_pow2 by lia. change (2 ^ 8)%Z with 256%Z.
  set (z := Z.of_nat size) in *.
  assert (0 <= z)%Z by (subst z; lia).
  rewrite (Z.mod_small (z / 256) 256).
  2:{ split; [apply Z.div_pos; lia | apply Z.div_lt_upper_bound; lia]. }
  rewrite Z.mul_comm, <- Z.div_mod by lia.
  apply Z.mod_small. lia.
Qed.

Lemma length_size_header (size : nat) : length (size_header size) = 2.
Proof. reflexivity. Qed.

(** ** The nonce counter *)

Lemma length_increment (b : list byte) : length (increment b) = length b.
Proof.
  induction b as [|x rest IH]; cbn [increment]; [reflexivity|].
  destruct (_ =? 0)%Z; cbn [length]; congruence.
Qed.

Lemma increment_is_byte (b : list byte) :
  Forall is_byte b -> Forall is_byte (increment b).
Proof.
  induction 1 as [|x rest Hx Hrest IH]; cbn [increment]; [constructor|].
  assert (is_byte ((x + 1) mod 256)%Z) by (apply Z.mod_pos_bound; lia).
  destruct (_ =? 0)%Z; constructor; assumption.
Qed.

Lemma le_value_bounds (b : list byte) :
  Forall is_byte b -> (0 <= le_value b < 256 ^ Z.of_nat (length b))%Z.
Proof.
  induction 1 as [|x rest Hx Hrest IH]; cbn [le_value length].
  - cbn. lia.
  - rewrite Nat2Z.inj_succ, Z.pow_succ_r by lia. unfold is_byte in Hx. lia.
Qed.

(** One [increment] adds one, modulo the width of the counter. *)
Lemma le_value_increment (b : list byte) :
  Forall is_byte b ->
  le_value (increment b) = ((le_value b + 1) mod 256 ^ Z.of_nat (length b))%Z.
Proof.
  induction 1 as [|x rest Hx Hrest IH]; cbn [increment le_value length].
  - cbn. reflexivity.
  - rewrite Nat2Z.inj_succ, Z.pow_succ_r by lia.
    pose proof (le_value_bounds rest Hrest) as Hb.
    unfold is_byte in Hx.
    destruct (Z.eqb_spec ((x + 1) mod 256) 0) as [E|E]; cbn [le_value].
    + assert (x = 255)%Z as ->.
      { destruct (Z.eq_dec x 255) as [|N]; [assumption|].
        rewrite Z.mod_small in E by lia. lia. }
      rewrite IH. change ((255 + 1) mod 256)%Z with 0%Z.
      replace (255 + 256 * le_value rest + 1)%Z with (256 * (le_value rest + 1))%Z by lia.
      rewrite Z.mul_mod_distr_l by lia. lia.
    + assert (x < 255)%Z.
      { destruct (Z.eq_dec x 255) as [->|N]; [exfalso; apply E; reflexivity | lia]. }
      rewrite (Z.mod_small (x + 1) 256) by lia.
      rewrite Z.mod_small by nia. lia.
Qed.

Lemma pow_256 (n : nat) : (256 ^ Z.of_nat n = 2 ^ (8 * Z.of_nat n))%Z.
Proof. rewrite Z.pow_mul_r by lia. reflexivity. Qed.

Lemma zeros_is_byte (n : nat) : Forall is_byte (repeat 0%Z n).
Proof. apply Forall_forall. intros x Hx. apply repeat_spec in Hx. subst. unfold is_byte. lia. Qed.

Lemma le_value_zeros (n : nat) : le_value (repeat 0%Z n) = 0%Z.
Proof. induction n as [|n IH]; cbn [repeat le_value]; lia. Qed.

Lemma iter_S {A} (f : A -> A) (k : nat) (x : A) : iter (S k) f x = f (iter k f x).
Proof. revert x. induction k as [|k IH]; intros x; [reflexivity|]. cbn [iter] in *. apply IH. Qed.

Lemma iter_increment (k : nat) (b : list byte) :
  Forall is_byte b ->
  Forall is_byte (iter k increment b)
  /\ length (iter k increment b) = length b
  /\ le_value (iter k increment b)
     = ((le_value b + Z.of_nat k) mod 256 ^ Z.of_nat (length b))%Z.
Proof.
  intros Hb. induction k as [|k (IH1 & IH2 & IH3)].
  - cbn [iter]. repeat split; [assumption|].
    rewrite Z.add_0_r. symmetry. apply Z.mod_small, le_value_bounds, Hb.
  - rewrite iter_S. repeat split.
    + apply increment_is_byte, IH1.
    + rewrite length_increment. exact IH2.
    + rewrite le_value_increment by exact IH1. rewrite IH2, IH3.
      rewrite Zplus_mod_idemp_l. f_equal. lia.
Qed.

(** ** Writing into the scratch array *)

Lemma length_slice_append (buf : list byte) (dst : nat) (data : list byte) :
  length (slice_append buf dst data) = length buf.
Proof.
  unfold slice_append. destruct (Nat.leb_spec (dst + length data) (length buf)) as [H|H];
    [|reflexivity].
  rewrite !length_app, length_firstn, length_skipn. lia.
Qed.

Lemma firstn_slice_append (buf : list byte) (dst : nat) (data : list byte) :
  dst + length data <= length buf ->
  firstn (dst + length data) (slice_append buf dst data) = firstn dst buf ++ data.
Proof.
  intros H. unfold slice_append.
  destruct (Nat.leb_spec (dst + length data) (length buf)) as [_|H']; [|lia].
  rewrite app_assoc.
  rewrite firstn_app, firstn_all2 by (rewrite length_app, length_firstn; lia).
  rewrite length_app, length_firstn.
  replace (dst + length data - (Nat.min dst (length buf) + length data)) with 0 by lia.
  cbn [firstn]. apply app_nil_r.
Qed.

Lemma firstn_slice_append_0 (buf data : list byte) :
  length data <= length buf ->
  firstn (length data) (slice_append buf 0 data) = data.
Proof. intros H. apply (firstn_slice_append buf 0 data H). Qed.

(** ** One chunk *)

Lemma write_unfold (c : aeadTunnel) (p : list byte) :
  length p <= MaxPayload ->
  room c ->
  write c p =
  Ret (match wfault (ReadWriter c) (length (wlog (ReadWriter c))) with
       | Some e => (0, Some e)
       | None => (length p, None)
       end, after_write c p).
Proof.
  intros Hp Hroom. unfold write, room in *.
  destruct (Nat.ltb_spec MaxPayload (length p)) as [H|_]; [lia|].
  destruct (Nat.ltb_spec (length (buffer c))
              (2 + cipher.Overhead (WAEAD c) + length p + cipher.Overhead (WAEAD c)))
    as [H|_]; [lia|].
  unfold Seal, conn_Write, after_write, write_chunk, write_buffer. cbn.
  destruct (wfault (ReadWriter c) (length (wlog (ReadWriter c)))); reflexivity.
Qed.

Lemma room_after_write (c : aeadTunnel) (p : list byte) :
  room c -> room (after_write c p).
Proof.
  unfold room, after_write, write_buffer. cbn.
  rewrite !length_slice_append. trivial.
Qed.

(** With a lawful AEAD the chunk is the sealed length followed by the
    sealed payload. *)
Lemma write_chunk_lawful (c : aeadTunnel) (p : list byte) :
  cipher.lawful (WAEAD c) ->
  length p <= MaxPayload ->
  room c ->
  write_chunk c p =
  cipher.Seal (WAEAD c) (WNonce c) (size_header (length p))
  ++ cipher.Seal (WAEAD c) (increment (WNonce c)) p.
Proof.
  intros [Hlen _] Hp Hroom. unfold write_chunk, write_buffer, room in *.
  set (ov := cipher.Overhead (WAEAD c)) in *.
  set (sh := cipher.Seal (WAEAD c) (WNonce c) (size_header (length p))).
  set (sp := cipher.Seal (WAEAD c) (increment (WNonce c)) p).
  assert (Hsh : length sh = 2 + ov) by (subst sh; rewrite Hlen; reflexivity).
  assert (Hsp : length sp = length p + ov) by (subst sp; apply Hlen).
  replace (2 + ov + length p + ov) with ((2 + ov) + length sp) by lia.
  rewrite firstn_slice_append by (rewrite length_slice_append; lia).
  f_equal. rewrite <- Hsh. apply firstn_slice_append_0. lia.
Qed.

(** ** The write loop *)

Lemma chunk_count_lt (L i : nat) : i < chunk_count L <-> i * MaxPayload < L.
Proof.
  pose proof MaxPayload_pos as HM. unfold chunk_count. split; intros H.
  - destruct (Nat.lt_ge_cases (i * MaxPayload) L) as [|Hge]; [assumption|exfalso].
    assert ((L + MaxPayload - 1) / MaxPayload < i + 1); [|lia].
    apply Nat.Div0.div_lt_upper_bound; lia.
  - assert (i + 1 <= (L + MaxPayload - 1) / MaxPayload); [|lia].
    apply Nat.div_le_lower_bound; lia.
Qed.

Lemma chunk_count_0 : chunk_count 0 = 0.
Proof.
  destruct (chunk_count 0) as [|k] eqn:E; [reflexivity|].
  assert (H : 0 < chunk_count 0) by lia. apply chunk_count_lt in H. lia.
Qed.

Lemma chunk_count_le (L : nat) : chunk_count L <= L.
Proof.
  pose proof MaxPayload_pos as HM.
  destruct (chunk_count L) as [|k] eqn:E; [lia|].
  assert (H : k < chunk_count L) by lia. apply chunk_count_lt in H. nia.
Qed.

(** The piece the loop hands to [write] in iteration [i]. *)
Lemma piece_firstn (p : list byte) (i : nat) :
  i * MaxPayload < length p ->
  firstn ((if length p <? (i + 1) * MaxPayload then length p else (i + 1) * MaxPayload)
          - i * MaxPayload) (skipn (i * MaxPayload) p)
  = firstn MaxPayload (skipn (i * MaxPayload) p).
Proof.
  intros Hi. destruct (Nat.ltb_spec (length p) ((i + 1) * MaxPayload)) as [H|H].
  - rewrite !firstn_all2; [reflexivity| |]; rewrite length_skipn; lia.
  - f_equal. lia.
Qed.

Lemma length_piece (p : list byte) (i : nat) :
  length (firstn MaxPayload (skipn (i * MaxPayload) p))
  = Nat.min ((i + 1) * MaxPayload) (length p) - i * MaxPayload.
Proof. rewrite length_firstn, length_skipn. lia. Qed.

Lemma wire_all_ok (chunks : list (list byte)) : wire (all_ok chunks) = concat chunks.
Proof.
  unfold wire, all_ok. rewrite map_map. cbn [fst snd]. rewrite map_id. reflexivity.
Qed.

Lemma wire_app (l1 l2 : list (list byte * option error)) :
  wire (l1 ++ l2) = wire l1 ++ wire l2.
Proof. unfold wire. rewrite map_app, concat_app. reflexivity. Qed.

(** The loop on a connection that accepts every write. *)
Lemma Write_loop_healthy (p : list byte) :
  forall fuel i c,
    room c ->
    healthy_from (ReadWriter c) (length (wlog (ReadWriter c))) ->
    i <= chunk_count (length p) ->
    chunk_count (length p) <= i + fuel ->
    exists c',
      Write_loop fuel i (Nat.min (i * MaxPayload) (length p)) c p
      = Ret (length p, None, c')
      /\ length (wlog (ReadWriter c'))
         = length (wlog (ReadWriter c)) + (chunk_count (length p) - i)
      /\ (cipher.lawful (WAEAD c) ->
          wlog (ReadWriter c')
          = wlog (ReadWriter c)
            ++ all_ok (encode (chunk_count (length p) - i) (WAEAD c) (WNonce c)
                         (skipn (i * MaxPayload) p)))
      /\ RAEAD c' = RAEAD c /\ RNonce c' = RNonce c /\ cache c' = cache c
      /\ WAEAD c' = WAEAD c
      /\ WNonce c' = iter (2 * (chunk_count (length p) - i)) increment (WNonce c)
      /\ rx (ReadWriter c') = rx (ReadWriter c).
Proof.
  pose proof MaxPayload_pos as HM.
  induction fuel as [|fuel IH]; intros i c Hroom Hok Hi Hfuel.
  - assert (i = chunk_count (length p)) as Ei by lia.
    assert (~ i * MaxPayload < length p) as Hn
        by (rewrite <- chunk_count_lt; lia).
    exists c. cbn [Write_loop].
    destruct (Nat.ltb_spec (i * MaxPayload) (length p)) as [H|H]; [contradiction|].
    replace (chunk_count (length p) - i) with 0 by lia.
    rewrite Nat.min_r, Nat.add_0_r by lia.
    cbn [encode all_ok map iter Nat.mul]. rewrite app_nil_r. repeat split; reflexivity.
  - cbn [Write_loop].
    destruct (Nat.ltb_spec (i * MaxPayload) (length p)) as [Hlt|Hge].
    + rewrite piece_firstn by assumption.
      set (piece := firstn MaxPayload (skipn (i * MaxPayload) p)).
      assert (Hpl : length piece = Nat.min ((i + 1) * MaxPayload) (length p) - i * MaxPayload)
        by apply length_piece.
      assert (Hple : length piece <= MaxPayload) by (rewrite Hpl; lia).
      rewrite (write_unfold c piece Hple Hroom).
      rewrite (Hok _ (le_n _)). cbn [bind].
      assert (Hi' : i < chunk_count (length p)) by (apply chunk_count_lt; assumption).
      destruct (IH (i + 1) (after_write c piece)) as (c' & Hrun & Hlen & Hlog & Hfr);
        [ apply room_after_write; assumption
        | intros j Hj; cbn in Hj |- *; apply Hok; rewrite length_app in Hj; lia
        | lia | lia | ].
      exists c'.
      replace (Nat.min (i * MaxPayload) (length p) + length piece)
        with (Nat.min ((i + 1) * MaxPayload) (length p)) by lia.
      split; [exact Hrun|].
      replace (chunk_count (length p) - i) with (S (chunk_count (length p) - (i + 1))) by lia.
      split; [|split].
      * rewrite Hlen. cbn. rewrite length_app. cbn. lia.
      * intros Hlaw. rewrite Hlog by exact Hlaw. cbn [after_write ReadWriter WAEAD WNonce].
        cbn [conn_Write snd wlog]. rewrite (Hok _ (le_n _)).
        rewrite (write_chunk_lawful c piece Hlaw Hple Hroom).
        rewrite <- app_assoc. cbn [encode all_ok map app]. fold piece.
        rewrite skipn_skipn. replace (MaxPayload + i * MaxPayload) with ((i + 1) * MaxPayload) by lia.
        reflexivity.
      * destruct Hfr as (H1 & H2 & H3 & H4 & H5 & H6).
        cbn [after_write RAEAD RNonce cache WAEAD WNonce ReadWriter conn_Write snd rx] in *.
        repeat split; try assumption.
        rewrite H5. replace (2 * S (chunk_count (length p) - (i + 1)))
          with (S (S (2 * (chunk_count (length p) - (i + 1))))) by lia.
        reflexivity.
    + assert (~ i < chunk_count (length p)) as Hn by (rewrite chunk_count_lt; lia).
      assert (i = chunk_count (length p)) as Ei by lia.
      exists c. replace (chunk_count (length p) - i) with 0 by lia.
      rewrite Nat.min_r, Nat.add_0_r by lia.
      cbn [encode all_ok map iter Nat.mul]. rewrite app_nil_r. repeat split; reflexivity.
Qed.

(** The loop on any connection: it returns, and when it returns an error
    the calls it made are some accepted chunks followed by the one that
    failed. *)
Lemma Write_loop_outcome (p : list byte) :
  forall fuel i c,
    room c ->
    i <= chunk_count (length p) ->
    chunk_count (length p) <= i + fuel ->
    exists n err c' oks,
      Write_loop fuel i (Nat.min (i * MaxPayload) (length p)) c p = Ret (n, err, c')
      /\ match err with
         | None =>
             n = length p
             /\ wlog (ReadWriter c') = wlog (ReadWriter c) ++ all_ok oks
             /\ i + length oks = chunk_count (length p)
         | Some e =>
             exists bad,
             wlog (ReadWriter c') = wlog (ReadWriter c) ++ all_ok oks ++ [(bad, Some e)]
             /\ n = (i + length oks) * MaxPayload
             /\ i + length oks < chunk_count (length p)
         end.
Proof.
  pose proof MaxPayload_pos as HM.
  induction fuel as [|fuel IH]; intros i c Hroom Hi Hfuel; cbn [Write_loop].
  - assert (~ i * MaxPayload < length p) as Hn by (rewrite <- chunk_count_lt; lia).
    destruct (Nat.ltb_spec (i * MaxPayload) (length p)) as [H|H]; [contradiction|].
    exists (Nat.min (i * MaxPayload) (length p)), None, c, [].
    split; [reflexivity|]. cbn. rewrite app_nil_r. repeat split; lia.
  - destruct (Nat.ltb_spec (i * MaxPayload) (length p)) as [Hlt|Hge].
    + rewrite piece_firstn by assumption.
      set (piece := firstn MaxPayload (skipn (i * MaxPayload) p)).
      assert (Hpl : length piece = Nat.min ((i + 1) * MaxPayload) (length p) - i * MaxPayload)
        by apply length_piece.
      assert (Hple : length piece <= MaxPayload) by (rewrite Hpl; lia).
      assert (Hi' : i < chunk_count (length p)) by (apply chunk_count_lt; assumption).
      rewrite (write_unfold c piece Hple Hroom).
      destruct (wfault (ReadWriter c) (length (wlog (ReadWriter c)))) as [e|] eqn:Ef;
        cbn [bind].
      * exists (Nat.min (i * MaxPayload) (length p) + 0), (Some e), (after_write c piece), [].
        split; [reflexivity|]. exists (write_chunk c piece).
        cbn. rewrite Ef. repeat split; lia.
      * destruct (IH (i + 1) (after_write c piece)) as (n & err & c' & oks & Hrun & Hpost);
          [ apply room_after_write; assumption | lia | lia | ].
        replace (Nat.min (i * MaxPayload) (length p) + length piece)
          with (Nat.min ((i + 1) * MaxPayload) (length p)) by lia.
        exists n, err, c', (write_chunk c piece :: oks).
        split; [exact Hrun|].
        cbn [after_write ReadWriter conn_Write snd wlog] in Hpost. rewrite Ef in Hpost.
        destruct err as [e|].
        -- destruct Hpost as (bad & Hlog & Hn & Hlt').
           exists bad. rewrite Hlog, <- !app_assoc. cbn [all_ok map app length].
           repeat split; lia.
        -- destruct Hpost as (Hn & Hlog & Hlt').
           rewrite Hlog, <- !app_assoc. cbn [all_ok map app length].
           repeat split; lia.
    + assert (~ i < chunk_count (length p)) as Hn by (rewrite chunk_count_lt; lia).
      exists (Nat.min (i * MaxPayload) (length p)), None, c, [].
      split; [reflexivity|]. cbn. rewrite app_nil_r. repeat split; lia.
Qed.

(** The loop on any connection, call by call: the writes before the one
    that fails were accepted, and the failing one is the first the
    connection refuses. *)
Lemma Write_loop_trace (p : list byte) :
  forall fuel i c,
    room c ->
    i <= chunk_count (length p) ->
    chunk_count (length p) <= i + fuel ->
    exists n err c' oks,
      Write_loop fuel i (Nat.min (i * MaxPayload) (length p)) c p = Ret (n, err, c')
      /\ (forall j, j < length oks ->
            wfault (ReadWriter c) (length (wlog (ReadWriter c)) + j) = None)
      /\ match err with
         | None => i + length oks = chunk_count (length p)
         | Some e =>
             exists bad,
             wlog (ReadWriter c') = wlog (ReadWriter c) ++ all_ok oks ++ [(bad, Some e)]
             /\ n = (i + length oks) * MaxPayload
             /\ i + length oks < chunk_count (length p)
             /\ wfault (ReadWriter c) (length (wlog (ReadWriter c)) + length oks) = Some e
             /\ (cipher.lawful (WAEAD c) ->
                 oks ++ [bad]
                 = encode (S (length oks)) (WAEAD c) (WNonce c) (skipn (i * MaxPayload) p))
         end.
Proof.
  pose proof MaxPayload_pos as HM.
  induction fuel as [|fuel IH]; intros i c Hroom Hi Hfuel; cbn [Write_loop].
  - assert (~ i * MaxPayload < length p) as Hn by (rewrite <- chunk_count_lt; lia).
    destruct (Nat.ltb_spec (i * MaxPayload) (length p)) as [H|H]; [contradiction|].
    exists (Nat.min (i * MaxPayload) (length p)), None, c, [].
    split; [reflexivity|]. cbn [length]. split; [intros j Hj; lia | lia].
  - destruct (Nat.ltb_spec (i * MaxPayload) (length p)) as [Hlt|Hge].
    + rewrite piece_firstn by assumption.
      set (piece := firstn MaxPayload (skipn (i * MaxPayload) p)).
      assert (Hpl : length piece = Nat.min ((i + 1) * MaxPayload) (length p) - i * MaxPayload)
        by apply length_piece.
      assert (Hple : length piece <= MaxPayload) by (rewrite Hpl; lia).
      assert (Hi' : i < chunk_count (length p)) by (apply chunk_count_lt; assumption).
      rewrite (write_unfold c piece Hple Hroom).
      destruct (wfault (ReadWriter c) (length (wlog (ReadWriter c)))) as [e|] eqn:Ef;
        cbn [bind].
      * exists (Nat.min (i * MaxPayload) (length p) + 0), (Some e), (after_write c piece), [].
        split; [reflexivity|]. cbn [length]. split; [intros j Hj; lia|].
        exists (write_chunk c piece).
        cbn [after_write ReadWriter conn_Write snd wlog all_ok map app].
        rewrite Ef, !Nat.add_0_r.
        split; [reflexivity|]. split; [lia|]. split; [lia|]. split; [exact Ef|].
        intros Hlaw. rewrite (write_chunk_lawful c piece Hlaw Hple Hroom).
        reflexivity.
      * destruct (IH (i + 1) (after_write c piece))
          as (n & err & c' & oks & Hrun & Hgood & Hpost);
          [ apply room_after_write; assumption | lia | lia | ].
        replace (Nat.min (i * MaxPayload) (length p) + length piece)
          with (Nat.min ((i + 1) * MaxPayload) (length p)) by lia.
        exists n, err, c', (write_chunk c piece :: oks).
        split; [exact Hrun|].
        cbn [after_write ReadWriter conn_Write snd wlog wfault WAEAD WNonce]
          in Hgood, Hpost.
        rewrite Ef, length_app in Hgood, Hpost. cbn [length] in Hgood, Hpost |- *.
        split.
        { intros [|j] Hj; [rewrite Nat.add_0_r; exact Ef|].
          replace (length (wlog (ReadWriter c)) + S j)
            with (length (wlog (ReadWriter c)) + 1 + j) by lia.
          apply Hgood. lia. }
        destruct err as [e|]; [|lia].
        destruct Hpost as (bad & Hlog & Hn & Hlt' & Hbad & Henc).
        exists bad. rewrite Hlog, <- !app_assoc. cbn [all_ok map app].
        split; [reflexivity|]. split; [lia|]. split; [lia|]. split.
        { replace (length (wlog (ReadWriter c)) + S (length oks))
            with (length (wlog (ReadWriter c)) + 1 + length oks) by lia.
          exact Hbad. }
        intros Hlaw. specialize (Henc Hlaw).
        replace (skipn ((i + 1) * MaxPayload) p)
          with (skipn MaxPayload (skipn (i * MaxPayload) p)) in Henc
          by (rewrite skipn_skipn; f_equal; lia).
        cbn [app]. rewrite Henc, (write_chunk_lawful c piece Hlaw Hple Hroom).
        reflexivity.
    + assert (~ i < chunk_count (length p)) as Hn by (rewrite chunk_count_lt; lia).
      exists (Nat.min (i * MaxPayload) (length p)), None, c, [].
      split; [reflexivity|]. cbn [length]. split; [intros j Hj; lia | lia].
Qed.

Lemma firstn_plus {A} (a b : nat) (l : list A) :
  firstn (a + b) l = firstn a l ++ firstn b (skipn a l).
Proof.
  revert l. induction a as [|a IH]; intros l; [reflexivity|].
  destruct l as [|x l]; cbn [Nat.add firstn skipn app].
  - rewrite firstn_nil. reflexivity.
  - rewrite IH. reflexivity.
Qed.

Lemma concat_split_pieces (k : nat) :
  forall rest j, j <= k ->
    concat (firstn j (split_pieces k rest)) = firstn (j * MaxPayload) rest.
Proof.
  induction k as [|k IH]; intros rest j Hj.
  - assert (j = 0) as -> by lia. reflexivity.
  - destruct j as [|j]; [reflexivity|].
    cbn [split_pieces firstn concat]. rewrite IH by lia.
    replace (S j * MaxPayload) with (MaxPayload + j * MaxPayload) by lia.
    rewrite firstn_plus. reflexivity.
Qed.

Lemma concat_pieces (p : list byte) : concat (pieces p) = p.
Proof.
  unfold pieces.
  rewrite <- (firstn_all (split_pieces _ p)) at 1.
  assert (Hlen : forall k rest, length (split_pieces k rest) = k).
  { induction k as [|k IH]; intros rest; cbn [split_pieces length]; [|rewrite IH]; reflexivity. }
  rewrite Hlen, concat_split_pieces by lia.
  apply firstn_all2.
  destruct (Nat.le_gt_cases (length p) (chunk_count (length p) * MaxPayload)) as [|H];
    [assumption|].
  apply chunk_count_lt in H. lia.
Qed.

(** ** The read path *)

(** [Read] is the cache step followed by [next_frame]. *)
Lemma Read_eq (c : aeadTunnel) (plen : nat) :
  Read c plen =
  if 0 <? slice_len (cache c) then
    let n := Nat.min plen (slice_len (cache c)) in
    if n =? plen then Ret (firstn n (cache_bytes c), None, advance c n)
    else next_frame (advance c n) (firstn n (cache_bytes c)) (plen - n)
  else next_frame c [] (plen - 0).
Proof.
  unfold Read, next_frame, advance.
  destruct (0 <? slice_len (cache c)); cbn [andb]; [|reflexivity].
  cbv zeta. destruct (Nat.min plen (slice_len (cache c)) =? plen); reflexivity.
Qed.

(** The cache satisfies the request. *)
Lemma Read_cached (c : aeadTunnel) (plen : nat) :
  0 < slice_len (cache c) ->
  plen <= slice_len (cache c) ->
  Read c plen = Ret (firstn plen (cache_bytes c), None, advance c plen).
Proof.
  intros Hpos Hle. rewrite Read_eq.
  destruct (Nat.ltb_spec 0 (slice_len (cache c))) as [_|H]; [|lia].
  cbv zeta. rewrite Nat.min_l by assumption. rewrite Nat.eqb_refl. reflexivity.
Qed.

Lemma cache_bytes_advance (c : aeadTunnel) (n : nat) :
  cache_bytes (advance c n) = skipn n (cache_bytes c).
Proof.
  unfold cache_bytes, advance, slice_bytes, slice_len. cbn.
  rewrite skipn_firstn_comm, skipn_skipn. f_equal; [lia|]. f_equal. lia.
Qed.

Lemma slice_len_advance (c : aeadTunnel) (n : nat) :
  slice_len (cache (advance c n)) = slice_len (cache c) - n.
Proof. unfold advance, slice_len. cbn. lia. Qed.

Lemma slice_append_0 (buf data : list byte) :
  length data <= length buf ->
  slice_append buf 0 data = data ++ skipn (length data) buf.
Proof.
  intros H. unfold slice_append. cbn [Nat.add firstn app].
  destruct (Nat.leb_spec (length data) (length buf)); [reflexivity|lia].
Qed.

(** [io.ReadFull] when the bytes are there. *)
Lemma io_ReadFull_ok (s : conn) (data rest : list byte) :
  rx s = data ++ rest ->
  exists s',
    io_ReadFull s (length data) = (data, None, s')
    /\ rx s' = rest /\ rx_err s' = rx_err s /\ wlog s' = wlog s /\ wfault s' = wfault s.
Proof.
  intros Hrx. unfold io_ReadFull.
  destruct (Nat.eqb_spec (length data) 0) as [E|E].
  - apply length_zero_iff_nil in E. subst data. exists s. cbn in Hrx. auto.
  - destruct (Nat.leb_spec (length data) (length (rx s))) as [_|H].
    + rewrite Hrx, firstn_app, firstn_all, Nat.sub_diag, skipn_app, skipn_all, Nat.sub_diag.
      cbn [firstn skipn app]. rewrite app_nil_r. eexists. repeat split.
    + rewrite Hrx, length_app in H. lia.
Qed.

Lemma firstn_exact {A} (n : nat) (l1 l2 : list A) :
  n = length l1 -> firstn n (l1 ++ l2) = l1.
Proof.
  intros ->. rewrite firstn_app, firstn_all, Nat.sub_diag. cbn [firstn]. apply app_nil_r.
Qed.

(** Receiving one sealed message: [io.ReadFull] into the front of the
    scratch array, then [Open] in place. *)
Lemma recv_sealed (c : aeadTunnel) (m : nat) (pt rest : list byte) :
  cipher.lawful (RAEAD c) ->
  m = length pt + cipher.Overhead (RAEAD c) ->
  m <= length (buffer c) ->
  rx (ReadWriter c) = cipher.Seal (RAEAD c) (RNonce c) pt ++ rest ->
  exists c1 c2,
    fill c m = (None, c1)
    /\ Open c1 0 (firstn m (buffer c1)) = (inl pt, c2)
    /\ firstn (length pt) (buffer c2) = pt
    /\ RNonce c2 = increment (RNonce c)
    /\ rx (ReadWriter c2) = rest
    /\ cache c2 = cache c
    /\ same_write_side c c2.
Proof.
  intros [Hlen Hopen] Hm Hroom Hrx.
  set (ct := cipher.Seal (RAEAD c) (RNonce c) pt) in *.
  assert (Hct : length ct = m) by (subst ct m; apply Hlen).
  destruct (io_ReadFull_ok (ReadWriter c) ct rest Hrx) as (s' & E & Hs1 & Hs2 & Hs3 & Hs4).
  rewrite Hct in E.
  eexists. eexists. split.
  { unfold fill. rewrite E. reflexivity. }
  cbn [buffer with_ReadWriter with_buffer].
  rewrite (firstn_exact m ct _ (eq_sym Hct)).
  unfold Open. cbn [RAEAD RNonce with_ReadWriter with_buffer buffer].
  assert (Hop : cipher.Open (RAEAD c) (RNonce c) ct = inl pt) by apply Hopen.
  rewrite Hop.
  assert (Hfit : length pt <= length (ct ++ skipn (length ct) (buffer c))).
  { rewrite length_app, length_skipn. lia. }
  rewrite slice_append_0 by exact Hfit.
  split; [reflexivity|].
  cbn [buffer RNonce ReadWriter cache RAEAD WAEAD WNonce
       with_ReadWriter with_buffer with_RNonce].
  split; [apply firstn_exact; reflexivity|].
  unfold same_write_side.
  cbn [buffer RNonce ReadWriter cache RAEAD WAEAD WNonce
       with_ReadWriter with_buffer with_RNonce].
  repeat split; try assumption.
  rewrite !length_app, !length_skipn, length_app, length_skipn. lia.
Qed.

Lemma nth_of_firstn (l buf : list byte) (i : nat) (d : byte) :
  firstn (length l) buf = l -> i < length l -> nth i buf d = nth i l d.
Proof.
  intros H Hi. rewrite <- (firstn_skipn (length l) buf), H. apply app_nth1, Hi.
Qed.

Lemma same_write_side_trans (c1 c2 c3 : aeadTunnel) :
  same_write_side c1 c2 -> same_write_side c2 c3 -> same_write_side c1 c3.
Proof.
  unfold same_write_side. intros (A1 & A2 & A3 & A4 & A5 & A6 & A7) (B1 & B2 & B3 & B4 & B5 & B6 & B7).
  repeat split; congruence.
Qed.

(** [next_frame] on a connection that holds one sealed chunk whose length
    field is [h0 h1], whatever its top two bits: the payload goes to the
    caller as far as there is space, the remainder becomes the cache. *)
Lemma next_frame_any_header (c : aeadTunnel) (out : list byte) (space : nat)
      (h0 h1 : byte) (piece rest : list byte) :
  cipher.lawful (RAEAD c) ->
  read_room c ->
  Z.to_nat (frame_size h0 h1) = length piece ->
  rx (ReadWriter c)
  = (cipher.Seal (RAEAD c) (RNonce c) [h0; h1]
     ++ cipher.Seal (RAEAD c) (increment (RNonce c)) piece) ++ rest ->
  slice_len (cache c) = 0 ->
  exists c',
    next_frame c out space = Ret (out ++ firstn space piece, None, c')
    /\ cache_bytes c' = skipn space piece
    /\ slice_len (cache c') = length piece - space
    /\ RNonce c' = increment (increment (RNonce c))
    /\ rx (ReadWriter c') = rest
    /\ same_write_side c c'.
Proof.
  intros Hlaw Hroom Hp Hrx Hc. unfold read_room in Hroom.
  assert (Hpm : length piece <= MaxPayload).
  { pose proof (frame_size_bounds h0 h1) as Hb. pose proof MaxPayload_Z. lia. }
  rewrite <- app_assoc in Hrx.
  destruct (recv_sealed c (2 + cipher.Overhead (RAEAD c)) [h0; h1] _
              Hlaw eq_refl ltac:(lia) Hrx)
    as (c1 & c2 & F1 & O1 & B1 & N1 & R1 & C1 & S1).
  assert (Hsize : Z.to_nat (frame_size (nth 0 (buffer c2) 0%Z) (nth 1 (buffer c2) 0%Z))
                  = length piece).
  { rewrite (nth_of_firstn [h0; h1] (buffer c2) 0 0%Z B1 ltac:(cbn; lia)).
    rewrite (nth_of_firstn [h0; h1] (buffer c2) 1 0%Z B1 ltac:(cbn; lia)).
    exact Hp. }
  pose proof S1 as (SA & _ & _ & _ & _ & _ & SL).
  assert (Hlaw2 : cipher.lawful (RAEAD c2)) by (rewrite SA; exact Hlaw).
  rewrite <- N1, <- SA in R1.
  destruct (recv_sealed c2 (length piece + cipher.Overhead (RAEAD c)) piece rest
              Hlaw2 ltac:(rewrite SA; reflexivity) ltac:(lia) R1)
    as (c3 & c4 & F2 & O2 & B2 & N2 & R2 & C2 & S2).
  unfold next_frame.
  destruct (Nat.ltb_spec (length (buffer c)) (2 + cipher.Overhead (RAEAD c))) as [H|_]; [lia|].
  rewrite F1. cbv beta iota zeta. rewrite O1. cbv beta iota zeta.
  rewrite Hsize.
  destruct (Nat.ltb_spec (length (buffer c2)) (length piece + cipher.Overhead (RAEAD c)))
    as [H|_]; [lia|].
  rewrite F2. cbv beta iota zeta. rewrite O2. cbv beta iota zeta.
  rewrite B2.
  assert (Hout : firstn (Nat.min space (length piece)) piece = firstn space piece).
  { destruct (Nat.le_ge_cases space (length piece)) as [H|H].
    - rewrite Nat.min_l by assumption. reflexivity.
    - rewrite Nat.min_r by assumption. rewrite firstn_all, firstn_all2 by assumption.
      reflexivity. }
  rewrite Hout.
  eexists. split; [reflexivity|].
  pose proof (same_write_side_trans c c2 c4 S1 S2) as S.
  destruct (Nat.ltb_spec 0 (length piece - Nat.min space (length piece))) as [Hrem|Hrem].
  - assert (Hsp : Nat.min space (length piece) = space) by lia.
    unfold cache_bytes, slice_bytes, slice_len.
    cbn [cache with_cache buffer lo hi RNonce ReadWriter].
    rewrite Hsp. split; [|split; [|split; [|split]]].
    + rewrite <- skipn_firstn_comm, B2. reflexivity.
    + reflexivity.
    + rewrite N2, N1. reflexivity.
    + exact R2.
    + exact S.
  - assert (Hsp : length piece <= space) by lia.
    unfold cache_bytes, slice_bytes. rewrite C2, C1, Hc.
    cbn [firstn]. rewrite skipn_all2 by assumption.
    split; [|split; [|split; [|split]]];
      [reflexivity | lia | rewrite N2, N1; reflexivity | exact R2 | exact S].
Qed.

(** The same for the length field [write] produces. *)
Lemma next_frame_sealed (c : aeadTunnel) (out : list byte) (space : nat)
      (piece rest : list byte) :
  cipher.lawful (RAEAD c) ->
  read_room c ->
  length piece <= MaxPayload ->
  rx (ReadWriter c)
  = (cipher.Seal (RAEAD c) (RNonce c) (size_header (length piece))
     ++ cipher.Seal (RAEAD c) (increment (RNonce c)) piece) ++ rest ->
  slice_len (cache c) = 0 ->
  exists c',
    next_frame c out space = Ret (out ++ firstn space piece, None, c')
    /\ cache_bytes c' = skipn space piece
    /\ slice_len (cache c') = length piece - space
    /\ RNonce c' = increment (increment (RNonce c))
    /\ rx (ReadWriter c') = rest
    /\ same_write_side c c'.
Proof.
  intros Hlaw Hroom Hp Hrx Hc.
  apply (next_frame_any_header c out space
           (Z.shiftr (Z.of_nat (length piece)) 8 mod 256)%Z
           (Z.of_nat (length piece) mod 256)%Z piece rest Hlaw Hroom);
    [|exact Hrx|exact Hc].
  pose proof (frame_size_header (length piece) Hp) as H. cbn [size_header nth] in H.
  rewrite H. apply Nat2Z.id.
Qed.

Lemma chunk_count_S (L : nat) :
  0 < L -> chunk_count L = S (chunk_count (L - MaxPayload)).
Proof.
  intros HL. pose proof MaxPayload_pos as HM.
  set (k := chunk_count (L - MaxPayload)).
  assert (Hlow : k < chunk_count L).
  { apply chunk_count_lt. destruct k as [|k'] eqn:Ek; [lia|].
    assert (H : k' < chunk_count (L - MaxPayload)) by (fold k; lia).
    apply chunk_count_lt in H. lia. }
  destruct (Nat.le_gt_cases (chunk_count L) (S k)) as [|Hhigh]; [lia|exfalso].
  apply chunk_count_lt in Hhigh.
  assert (H : k < chunk_count (L - MaxPayload)) by (apply chunk_count_lt; lia).
  fold k in H. lia.
Qed.

(** ** Reader and writer in step *)

Lemma next_frame_in_sync (a : cipher.AEAD) (c : aeadTunnel) (body out : list byte)
      (space : nat) :
  cipher.lawful a ->
  in_sync a c body ->
  slice_len (cache c) = 0 ->
  exists err c' body',
    next_frame c out space = Ret (out ++ firstn space (firstn MaxPayload body), err, c')
    /\ in_sync a c' body'
    /\ body = firstn space (firstn MaxPayload body) ++ cache_bytes c' ++ body'
    /\ (err = None /\ (0 < space -> body <> [] -> firstn space (firstn MaxPayload body) <> [])
        \/ err = Some EOF /\ body = [] /\ cache_bytes c' ++ body' = []).
Proof.
  intros Hlaw [Ha Hroom Heof Hcache Hrx] Hc. pose proof MaxPayload_pos as HM.
  destruct body as [|b body0].
  - (* nothing left on the wire *)
    cbn [length] in Hrx. rewrite chunk_count_0 in Hrx. cbn [encode concat] in Hrx.
    unfold read_room in Hroom. unfold next_frame, fill, io_ReadFull.
    destruct (Nat.ltb_spec (length (buffer c)) (2 + cipher.Overhead (RAEAD c))) as [H|_];
      [lia|].
    rewrite Hrx, Heof. cbn [Nat.add Nat.eqb length Nat.leb app skipn firstn].
    rewrite firstn_nil, app_nil_r.
    eexists. eexists. exists []. split; [reflexivity|].
    split; [|split; [|right; repeat split]].
    + constructor; unfold read_room, cache_bytes, slice_bytes;
        cbn [RAEAD ReadWriter buffer cache RNonce rx rx_err with_ReadWriter with_buffer
             length].
      * exact Ha.
      * exact Hroom.
      * reflexivity.
      * rewrite Hc. reflexivity.
      * rewrite chunk_count_0. reflexivity.
    + unfold cache_bytes, slice_bytes. cbn. rewrite Hc. reflexivity.
    + unfold cache_bytes, slice_bytes. cbn. rewrite Hc. reflexivity.
  - set (body := b :: body0) in *.
    assert (Hpos : 0 < length body) by (cbn; lia).
    set (piece := firstn MaxPayload body).
    assert (Hpl : length piece <= MaxPayload) by (subst piece; rewrite length_firstn; lia).
    rewrite (chunk_count_S _ Hpos) in Hrx. cbn [encode concat] in Hrx. fold piece in Hrx.
    subst a.
    destruct (next_frame_sealed c out space piece _ Hlaw Hroom Hpl Hrx Hc)
      as (c' & Hrun & Hcb & Hsl & Hn & Hrest & S).
    pose proof S as (SA & _ & _ & SE & _ & _ & SL).
    exists None, c', (skipn MaxPayload body). split; [exact Hrun|].
    split; [|split; [|left; split; [reflexivity|]]].
    + constructor.
      * exact SA.
      * unfold read_room in *. rewrite SA, SL. exact Hroom.
      * rewrite SE. exact Heof.
      * rewrite Hsl, Hcb, length_skipn. reflexivity.
      * rewrite Hrest, Hn, length_skipn. reflexivity.
    + rewrite Hcb, app_assoc, firstn_skipn. subst piece. rewrite firstn_skipn. reflexivity.
    + intros Hs _ Hnil. apply (f_equal (@length byte)) in Hnil.
      rewrite length_firstn in Hnil. unfold piece in Hnil. rewrite length_firstn in Hnil.
      change (length (@nil byte)) with 0 in Hnil. lia.
Qed.

Lemma in_sync_advance (a : cipher.AEAD) (c : aeadTunnel) (body : list byte) (n : nat) :
  in_sync a c body -> in_sync a (advance c n) body.
Proof.
  intros [Ha Hroom Heof Hcache Hrx]. constructor; try assumption.
  rewrite slice_len_advance, cache_bytes_advance, length_skipn, Hcache. reflexivity.
Qed.

(** One [Read] of a tunnel in step with its peer: the bytes returned are
    the next undelivered ones, nothing is skipped, and the tunnel stays in
    step. *)
Lemma Read_in_sync (a : cipher.AEAD) (c : aeadTunnel) (body : list byte) (plen : nat) :
  cipher.lawful a ->
  in_sync a c body ->
  exists out err c' body',
    Read c plen = Ret (out, err, c')
    /\ in_sync a c' body'
    /\ cache_bytes c ++ body = out ++ cache_bytes c' ++ body'
    /\ (err = None /\ (0 < plen -> cache_bytes c ++ body <> [] -> out <> [])
        \/ err = Some EOF /\ cache_bytes c' ++ body' = []).
Proof.
  intros Hlaw Hsync. pose proof (sync_cache _ _ _ Hsync) as Hcache.
  rewrite Read_eq.
  destruct (Nat.ltb_spec 0 (slice_len (cache c))) as [Hpos|Hzero]; cbv zeta.
  - destruct (Nat.eqb_spec (Nat.min plen (slice_len (cache c))) plen) as [E|E].
    + (* the cache satisfies the request *)
      rewrite E. exists (firstn plen (cache_bytes c)), None, (advance c plen), body.
      split; [reflexivity|]. split; [apply in_sync_advance; assumption|].
      rewrite cache_bytes_advance. split.
      * rewrite (app_assoc (firstn _ _)), firstn_skipn. reflexivity.
      * left. split; [reflexivity|]. intros Hp _ Hnil.
        apply (f_equal (@length byte)) in Hnil. rewrite length_firstn in Hnil.
        cbn [length] in Hnil. lia.
    + (* the cache is drained, then a frame is read *)
      assert (En : Nat.min plen (slice_len (cache c)) = length (cache_bytes c)) by lia.
      rewrite En, firstn_all.
      pose proof (in_sync_advance a c body (length (cache_bytes c)) Hsync) as Hsync'.
      assert (Hc' : slice_len (cache (advance c (length (cache_bytes c)))) = 0)
        by (rewrite slice_len_advance; lia).
      destruct (next_frame_in_sync a _ body (cache_bytes c) (plen - length (cache_bytes c))
                  Hlaw Hsync' Hc')
        as (err & c' & body' & Hrun & Hs & Hbody & Herr).
      eexists. exists err, c', body'. split; [exact Hrun|]. split; [exact Hs|]. split.
      * rewrite <- app_assoc. f_equal. exact Hbody.
      * destruct Herr as [(-> & _)|(-> & _ & Hnil)]; [left|right]; split;
          try reflexivity; try assumption.
        intros _ _ Hnil. apply app_eq_nil in Hnil. destruct Hnil as [Hnil _].
        rewrite Hnil in Hcache. cbn [length] in Hcache. lia.
  - (* no cache *)
    assert (Hc : slice_len (cache c) = 0) by lia.
    assert (Hnil : cache_bytes c = []) by (apply length_zero_iff_nil; lia).
    destruct (next_frame_in_sync a c body [] (plen - 0) Hlaw Hsync Hc)
      as (err & c' & body' & Hrun & Hs & Hbody & Herr).
    eexists. exists err, c', body'. split; [exact Hrun|]. split; [exact Hs|].
    rewrite Hnil. cbn [app]. split; [exact Hbody|].
    destruct Herr as [(-> & Hne)|(-> & _ & Hn)]; [left|right]; split;
      try reflexivity; try assumption.
    intros Hp Hb. apply Hne; [lia|exact Hb].
Qed.

(** ** The caller's loop *)

Lemma Reads_in_sync (a : cipher.AEAD) :
  cipher.lawful a ->
  forall sizes c body,
    in_sync a c body ->
    exists out err c' undelivered,
      Reads c sizes = Ret (out, err, c')
      /\ cache_bytes c ++ body = out ++ undelivered
      /\ (err = None \/ err = Some EOF /\ undelivered = [])
      /\ (Forall (fun plen => 0 < plen) sizes ->
          length (cache_bytes c ++ body) <= length sizes ->
          undelivered = []).
Proof.
  intros Hlaw. induction sizes as [|plen sizes IH]; intros c body Hsync.
  - exists [], None, c, (cache_bytes c ++ body). split; [reflexivity|].
    split; [reflexivity|]. split; [left; reflexivity|]. intros _ Hlen.
    apply length_zero_iff_nil. cbn [length] in Hlen. lia.
  - destruct (Read_in_sync a c body plen Hlaw Hsync)
      as (out & err & c1 & body1 & Hrun & Hs1 & Hsplit & Herr).
    cbn [Reads]. rewrite Hrun. cbn [bind].
    destruct Herr as [(-> & Hprog)|(-> & Hnil)].
    + destruct (IH c1 body1 Hs1)
        as (out' & err' & c' & und & Hrun' & Hsplit' & Herr' & Hall).
      rewrite Hrun'. cbn [bind].
      exists (out ++ out'), err', c', und. split; [reflexivity|].
      split; [rewrite Hsplit, Hsplit', app_assoc; reflexivity|].
      split; [exact Herr'|].
      intros Hpos Hlen. inversion Hpos as [|? ? Hp Hpos']; subst.
      apply Hall; [exact Hpos'|].
      cbn [length] in Hlen. rewrite Hsplit, length_app in Hlen.
      destruct (cache_bytes c ++ body) as [|b rem] eqn:Erem.
      * symmetry in Hsplit. apply app_eq_nil in Hsplit. destruct Hsplit as [_ ->].
        cbn [length]. lia.
      * assert (out <> []) as Hne by (apply Hprog; [exact Hp|discriminate]).
        destruct out; [contradiction|]. cbn [length] in Hlen. lia.
    + exists out, (Some EOF), c1, []. split; [reflexivity|].
      split; [rewrite Hsplit, Hnil; reflexivity|].
      split; [right; split; reflexivity|]. reflexivity.
Qed.

(** ** The small cipher suite is a lawful AEAD *)

Lemma lxor_twice (k b : Z) : Z.lxor k (Z.lxor k b) = b.
Proof. rewrite <- Z.lxor_assoc, Z.lxor_nilpotent. apply Z.lxor_0_l. Qed.

Lemma Toy_suite_lawful (k : Z) : cipher.lawful (Toy.suite k).
Proof.
  constructor; intros n p; cbn [Toy.suite cipher.Seal cipher.Open cipher.Overhead].
  - unfold Toy.seal, Toy.tag. rewrite length_app, length_map. reflexivity.
  - unfold Toy.open, Toy.seal.
    set (body := map (Z.lxor (Toy.pad k n)) p).
    assert (Hlen : length (body ++ Toy.tag k n body) - 2 = length body).
    { rewrite length_app. cbn [Toy.tag length]. lia. }
    destruct (Nat.ltb_spec (length (body ++ Toy.tag k n body)) 2) as [H|_].
    { rewrite length_app in H. cbn [Toy.tag length] in H. lia. }
    rewrite Hlen, (firstn_exact _ body _ eq_refl).
    rewrite skipn_app, Nat.sub_diag, skipn_all. cbn [skipn app].
    destruct (list_eq_dec Z.eq_dec _ _) as [_|N]; [|contradiction].
    f_equal. subst body. rewrite map_map. rewrite <- (map_id p) at 2.
    apply map_ext. intros b. apply lxor_twice.
Qed.

Lemma Toy_tunnel_room (k : Z) (s : conn) : room (Toy.tunnel k s).
Proof. unfold room. cbn. rewrite repeat_length. lia. Qed.

Lemma Toy_tunnel_read_room (k : Z) (s : conn) : read_room (Toy.tunnel k s).
Proof. unfold read_room. cbn. rewrite repeat_length. lia. Qed.

(** A result is known once its count and its error are. *)
Lemma returned_with {A} (r : outcome (A * option error * aeadTunnel)) (a : A)
      (e : option error) (c : aeadTunnel) :
  match r with Ret (a', e', _) => a' = a /\ e' = e | _ => False end ->
  r = Ret (a, e, match r with Ret (_, _, c') => c' | _ => c end).
Proof. destruct r as [[[a' e'] c']| |]; [intros [-> ->]; reflexivity | easy | easy]. Qed.

(** ** What each direction leaves alone *)

Lemma fill_keeps (c : aeadTunnel) (m : nat) :
  WNonce (snd (fill c m)) = WNonce c
  /\ WAEAD (snd (fill c m)) = WAEAD c
  /\ wlog (ReadWriter (snd (fill c m))) = wlog (ReadWriter c)
  /\ RNonce (snd (fill c m)) = RNonce c
  /\ RAEAD (snd (fill c m)) = RAEAD c.
Proof.
  unfold fill, io_ReadFull.
  destruct (m =? 0); [|destruct (m <=? _)]; cbn; repeat split.
Qed.

Lemma Open_keeps (c : aeadTunnel) (dst : nat) (ct : list byte) :
  WNonce (snd (Open c dst ct)) = WNonce c
  /\ WAEAD (snd (Open c dst ct)) = WAEAD c
  /\ ReadWriter (snd (Open c dst ct)) = ReadWriter c
  /\ RAEAD (snd (Open c dst ct)) = RAEAD c.
Proof. unfold Open. destruct (cipher.Open _ _ _); cbn; repeat split. Qed.

Lemma next_frame_keeps_write_side (c : aeadTunnel) (out : list byte) (space : nat)
      (o : list byte) (e : option error) (c' : aeadTunnel) :
  next_frame c out space = Ret (o, e, c') -> write_side_kept c c'.
Proof.
  unfold next_frame, write_side_kept.
  destruct (_ <? _); [discriminate|].
  pose proof (fill_keeps c (2 + cipher.Overhead (RAEAD c))) as (F1 & F2 & F3 & _).
  destruct (fill c _) as [e1 c1]. cbn [snd] in *.
  destruct e1; [intros H; injection H as _ _ <-; auto|].
  pose proof (Open_keeps c1 0 (firstn (2 + cipher.Overhead (RAEAD c)) (buffer c1)))
    as (O1 & O2 & O3 & _).
  destruct (Open c1 0 _) as [r2 c2]. cbn [snd] in *.
  assert (K2 : WNonce c2 = WNonce c /\ WAEAD c2 = WAEAD c
               /\ wlog (ReadWriter c2) = wlog (ReadWriter c))
    by (rewrite O1, O2, O3; auto).
  destruct r2; [|intros H; injection H as _ _ <-; exact K2].
  destruct (_ <? _); [discriminate|].
  match goal with |- context [fill c2 ?m] =>
    pose proof (fill_keeps c2 m) as (G1 & G2 & G3 & _); destruct (fill c2 m) as [e3 c3]
  end.
  cbn [snd] in *.
  assert (K3 : WNonce c3 = WNonce c /\ WAEAD c3 = WAEAD c
               /\ wlog (ReadWriter c3) = wlog (ReadWriter c))
    by (destruct K2 as (? & ? & ?); rewrite G1, G2, G3; auto).
  destruct e3; [intros H; injection H as _ _ <-; exact K3|].
  match goal with |- context [Open c3 0 ?x] =>
    pose proof (Open_keeps c3 0 x) as (P1 & P2 & P3 & _); destruct (Open c3 0 x) as [r4 c4]
  end.
  cbn [snd] in *.
  assert (K4 : WNonce c4 = WNonce c /\ WAEAD c4 = WAEAD c
               /\ wlog (ReadWriter c4) = wlog (ReadWriter c))
    by (destruct K3 as (? & ? & ?); rewrite P1, P2, P3; auto).
  destruct r4; [|intros H; injection H as _ _ <-; exact K4].
  destruct (_ <? _); intros H; injection H as _ _ <-; exact K4.
Qed.

(** [Read] leaves the write direction alone: its counter, its AEAD, and
    what has been written to the connection. *)
Lemma Read_keeps_write_side (c : aeadTunnel) (plen : nat)
      (out : list byte) (err : option error) (c' : aeadTunnel) :
  Read c plen = Ret (out, err, c') -> write_side_kept c c'.
Proof.
  rewrite Read_eq. destruct (_ <? _); cbv zeta.
  - destruct (_ =? _).
    + intros H; injection H as _ _ <-. repeat split.
    + intros H. apply next_frame_keeps_write_side in H. exact H.
  - apply next_frame_keeps_write_side.
Qed.

Lemma write_keeps_read_side (c : aeadTunnel) (p : list byte)
      (n : nat) (err : option error) (c' : aeadTunnel) :
  write c p = Ret (n, err, c') -> read_side_kept c c'.
Proof.
  unfold write, read_side_kept.
  destruct (_ <? _); [intros H; injection H as _ _ <-; repeat split|].
  destruct (_ <? _); [discriminate|].
  unfold Seal, conn_Write. cbn.
  destruct (wfault _ _); intros H; injection H as _ _ <-; cbn; repeat split.
Qed.

Lemma Write_loop_keeps_read_side (p : list byte) :
  forall fuel i n c n' err c',
    Write_loop fuel i n c p = Ret (n', err, c') -> read_side_kept c c'.
Proof.
  induction fuel as [|fuel IH]; intros i n c n' err c'; cbn [Write_loop];
    destruct (_ <? _); try discriminate;
    try (intros H; injection H as _ _ <-; repeat split).
  destruct (write c _) as [[[nn e1] c1]| |] eqn:Ew; cbn [bind]; try discriminate.
  apply write_keeps_read_side in Ew.
  destruct e1.
  - intros H; injection H as _ _ <-. exact Ew.
  - intros H. apply IH in H. unfold read_side_kept in *.
    destruct Ew as (A1 & A2 & A3 & A4 & A5), H as (B1 & B2 & B3 & B4 & B5).
    repeat split; congruence.
Qed.

Lemma Write_keeps_read_side (c : aeadTunnel) (p : list byte)
      (n : nat) (err : option error) (c' : aeadTunnel) :
  Write c p = Ret (n, err, c') -> read_side_kept c c'.
Proof. apply Write_loop_keeps_read_side. Qed.

Lemma next_frame_ignores_write_side (c : aeadTunnel) (out : list byte) (space : nat)
      (wn : list byte) (wa : cipher.AEAD) :
  next_frame (set_write_side c wn wa) out space
  = lift (fun c' => set_write_side c' wn wa) (next_frame c out space).
Proof.
  unfold next_frame, fill, Open. proj_step.
  destruct (_ <? _); [reflexivity|].
  destruct (io_ReadFull _ _) as [[d [e|]] s]; proj_step; [reflexivity|].
  destruct (cipher.Open _ _ _); proj_step; [|reflexivity].
  destruct (_ <? _); [reflexivity|].
  destruct (io_ReadFull _ _) as [[d2 [e|]] s2]; proj_step; [reflexivity|].
  destruct (cipher.Open _ _ _); proj_step; [|reflexivity].
  destruct (_ <? _); reflexivity.
Qed.

(** [Read] does not look at the write direction: with another write
    counter and another write AEAD it returns the same bytes and the same
    error, and leaves the same tunnel but for those two. *)
Lemma Read_ignores_write_side (c : aeadTunnel) (plen : nat)
      (wn : list byte) (wa : cipher.AEAD) :
  Read (set_write_side c wn wa) plen
  = lift (fun c' => set_write_side c' wn wa) (Read c plen).
Proof.
  rewrite !Read_eq. unfold cache_bytes. proj_step.
  destruct (0 <? _); cbv zeta.
  - destruct (_ =? _); [reflexivity|].
    apply (next_frame_ignores_write_side (advance c _)).
  - apply next_frame_ignores_write_side.
Qed.

Lemma write_ignores_read_side (c : aeadTunnel) (p : list byte)
      (rn : list byte) (ra : cipher.AEAD) (w : slice) :
  write (set_read_side c rn ra w) p
  = lift (fun c' => set_read_side c' rn ra w) (write c p).
Proof.
  unfold write. cbn [set_read_side buffer WAEAD].
  destruct (_ <? _); [reflexivity|].
  destruct (_ <? _); [reflexivity|].
  unfold Seal, conn_Write. cbn.
  destruct (wfault _ _); reflexivity.
Qed.

Lemma Write_loop_ignores_read_side (p : list byte) (rn : list byte) (ra : cipher.AEAD)
      (w : slice) :
  forall fuel i n c,
    Write_loop fuel i n (set_read_side c rn ra w) p
    = lift (fun c' => set_read_side c' rn ra w) (Write_loop fuel i n c p).
Proof.
  induction fuel as [|fuel IH]; intros i n c; cbn [Write_loop];
    destruct (_ <? _); try reflexivity.
  rewrite write_ignores_read_side.
  destruct (write c _) as [[[nn e] c1]| |]; cbn [bind lift]; try reflexivity.
  destruct e; [reflexivity|]. apply IH.
Qed.

(** [Write] does not look at the read direction: with another read
    counter, another read AEAD and other bounds of the cache it returns the
    same count and error and hands the same chunks to the connection. *)
Lemma Write_ignores_read_side (c : aeadTunnel) (p : list byte)
      (rn : list byte) (ra : cipher.AEAD) (w : slice) :
  Write (set_read_side c rn ra w) p
  = lift (fun c' => set_read_side c' rn ra w) (Write c p).
Proof. apply Write_loop_ignores_read_side. Qed.

(** The bound of the loop is never reached: [Write] returns or panics. *)
Lemma Write_loop_has_fuel (p : list byte) :
  forall fuel i n c,
    chunk_count (length p) <= i + fuel ->
    Write_loop fuel i n c p <> OutOfFuel.
Proof.
  induction fuel as [|fuel IH]; intros i n c Hfuel; cbn [Write_loop].
  - destruct (Nat.ltb_spec (i * MaxPayload) (length p)) as [H|H]; [|discriminate].
    apply chunk_count_lt in H. lia.
  - destruct (Nat.ltb_spec (i * MaxPayload) (length p)) as [H|H]; [|discriminate].
    destruct (write c _) as [[[nn e] c1]| |] eqn:Ew; cbn [bind]; try discriminate.
    + destruct e; [discriminate|]. apply IH. lia.
    + exfalso. revert Ew. unfold write.
      destruct (_ <? _); [discriminate|]. destruct (_ <? _); [discriminate|].
      unfold Seal, conn_Write. cbn. destruct (wfault _ _); discriminate.
Qed.

Lemma Write_has_fuel (c : aeadTunnel) (p : list byte) : Write c p <> OutOfFuel.
Proof. apply Write_loop_has_fuel. cbn. apply chunk_count_le. Qed.

(** ** What a write costs *)

(** What one [write], and so the loop, does to array, connection and
    counter. *)
Lemma write_shape (c : aeadTunnel) (p : list byte) (n : nat) (e : option error)
      (c' : aeadTunnel) :
  write c p = Ret (n, e, c') ->
  length (buffer c') = length (buffer c)
  /\ rx_err (ReadWriter c') = rx_err (ReadWriter c)
  /\ wfault (ReadWriter c') = wfault (ReadWriter c)
  /\ exists k, length (wlog (ReadWriter c')) = length (wlog (ReadWriter c)) + k
               /\ WNonce c' = iter (2 * k) increment (WNonce c).
Proof.
  unfold write.
  destruct (_ <? _).
  { intros H; injection H as _ _ <-. repeat split. exists 0. split; [lia|reflexivity]. }
  destruct (_ <? _); [discriminate|].
  unfold Seal, conn_Write. tunnel_fields.
  destruct (wfault _ _); intros H; injection H as _ _ <-; tunnel_fields;
    rewrite !length_slice_append, length_app; cbn [length];
    (split; [reflexivity|]); (split; [reflexivity|]); (split; [reflexivity|]);
    exists 1; (split; [lia|reflexivity]).
Qed.

Lemma iter_add {A} (f : A -> A) (j k : nat) (x : A) :
  iter (j + k) f x = iter k f (iter j f x).
Proof. revert x. induction j as [|j IH]; intros x; [reflexivity|]. cbn [Nat.add iter]. apply IH. Qed.

Lemma Write_loop_shape (p : list byte) :
  forall fuel i n c n' e c',
    Write_loop fuel i n c p = Ret (n', e, c') ->
    length (buffer c') = length (buffer c)
    /\ rx_err (ReadWriter c') = rx_err (ReadWriter c)
    /\ wfault (ReadWriter c') = wfault (ReadWriter c)
    /\ exists k, length (wlog (ReadWriter c')) = length (wlog (ReadWriter c)) + k
                 /\ WNonce c' = iter (2 * k) increment (WNonce c).
Proof.
  induction fuel as [|fuel IH]; intros i n c n' e c'; cbn [Write_loop];
    destruct (_ <? _); try discriminate;
    try (intros H; injection H as _ _ <-; repeat split; exists 0; split; [lia|reflexivity]).
  destruct (write c _) as [[[nn e1] c1]| |] eqn:Ew; cbn [bind]; try discriminate.
  apply write_shape in Ew. destruct Ew as (A1 & A2 & A3 & k1 & A4 & A5).
  destruct e1.
  - intros H; injection H as _ _ <-. repeat split; try assumption. exists k1. split; assumption.
  - intros H. apply IH in H. destruct H as (B1 & B2 & B3 & k2 & B4 & B5).
    repeat split; try congruence. exists (k1 + k2). split; [lia|].
    rewrite B5, A5. replace (2 * (k1 + k2)) with (2 * k1 + 2 * k2) by lia.
    symmetry. apply iter_add.
Qed.

(** * The tunnel's contract *)

(** ** Writing *)

(** C5. Oversized-piece rejection: [write] with a piece longer than
    0x3FFF bytes returns the error at once; nothing is sealed, no counter
    moves, nothing reaches the connection: the tunnel is as it was. *)
Theorem write_rejects_oversized (c : aeadTunnel) (p : list byte) :
  MaxPayload < length p ->
  write c p = Ret (0, Some ErrTooLarge, c).
Proof.
  intros H. unfold write.
  destruct (Nat.ltb_spec MaxPayload (length p)) as [_|H']; [reflexivity|lia].
Qed.

Lemma write_rejects_oversized_witness :
  MaxPayload < length (repeat 0%Z (S MaxPayload))
  /\ write (Toy.tunnel 7 (Toy.pipe [])) (repeat 0%Z (S MaxPayload))
     = Ret (0, Some ErrTooLarge, Toy.tunnel 7 (Toy.pipe [])).
Proof.
  assert (H : MaxPayload < length (repeat 0%Z (S MaxPayload)))
    by (rewrite repeat_length; lia).
  split; [exact H|].
  apply (write_rejects_oversized (Toy.tunnel 7 (Toy.pipe [])) (repeat 0%Z (S MaxPayload)) H).
Defined.

(** C3, as implemented.  Chunk count: on a connection that accepts every
    write, [Write] of [L] bytes returns [L] and makes exactly
    [ceil(L / 0x3FFF)] calls of the connection's [Write], one per chunk
    (with a lawful AEAD each is the sealed length and the sealed payload of
    the next piece); for [L = 0] that is no call at all and the tunnel is
    unchanged. *)
Theorem Write_chunk_count (c : aeadTunnel) (p : list byte) :
  room c ->
  healthy_from (ReadWriter c) (length (wlog (ReadWriter c))) ->
  exists c',
    Write c p = Ret (length p, None, c')
    /\ length (wlog (ReadWriter c'))
       = length (wlog (ReadWriter c)) + (length p + MaxPayload - 1) / MaxPayload
    /\ (cipher.lawful (WAEAD c) ->
        wlog (ReadWriter c')
        = wlog (ReadWriter c)
          ++ all_ok (encode ((length p + MaxPayload - 1) / MaxPayload)
                       (WAEAD c) (WNonce c) p))
    /\ (length p = 0 -> c' = c).
Proof.
  intros Hroom Hok.
  destruct (Write_loop_healthy p (length p) 0 c Hroom Hok (Nat.le_0_l _)
              (chunk_count_le (length p)))
    as (c' & Hrun & Hlen & Hlog & _).
  rewrite Nat.sub_0_r in Hlen, Hlog. cbn [Nat.mul skipn] in Hlog.
  exists c'. split; [exact Hrun|]. split; [exact Hlen|]. split; [exact Hlog|].
  intros H0. apply length_zero_iff_nil in H0. subst p.
  cbn in Hrun. injection Hrun as <-. reflexivity.
Qed.

Lemma Write_chunk_count_witness :
  let c := Toy.tunnel 7 (Toy.pipe []) in
  let p := repeat 1%Z (MaxPayload + 2) in
  room c
  /\ healthy_from (ReadWriter c) (length (wlog (ReadWriter c)))
  /\ exists c',
       Write c p = Ret (length p, None, c')
       /\ length (wlog (ReadWriter c'))
          = length (wlog (ReadWriter c)) + (length p + MaxPayload - 1) / MaxPayload.
Proof.
  intros c p.
  assert (H1 : room c) by apply Toy_tunnel_room.
  assert (H2 : healthy_from (ReadWriter c) (length (wlog (ReadWriter c))))
    by (intros j _; reflexivity).
  split; [exact H1|]. split; [exact H2|].
  destruct (Write_chunk_count c p H1 H2) as (c' & Hrun & Hlen & _).
  exists c'. split; [exact Hrun|exact Hlen].
Defined.

(** C3, where specification and code part: an empty [Write] emits no
    chunk, not one chunk with an empty payload; the tunnel and what the
    connection has seen stay as they were. *)
Lemma empty_Write_emits_no_chunk :
  match Write (Toy.tunnel 7 (Toy.pipe [])) [] with
  | Ret (n, err, c') =>
      n = 0 /\ err = None
      /\ wlog (ReadWriter c') = []
      /\ c' = Toy.tunnel 7 (Toy.pipe [])
  | _ => False
  end.
Proof. cbn [Write length Write_loop Nat.mul Nat.ltb Nat.leb]. repeat split. Qed.

(** C9. Partial-write accounting.  Let call number [k] be the first call
    the connection refuses, counted from the start of this [Write], with
    [k] smaller than the number of pieces.  Then [Write] returns that
    error together with the count [k * 0x3FFF], the total length of the
    [k] pieces whose chunks were accepted, each a full piece; the calls it
    made are those [k] accepted chunks followed by the one refused, which
    is the last: the refused piece and the pieces behind it count for
    nothing, and nothing is tried again.  With a lawful AEAD the calls
    carry the first [k + 1] chunks of the wire format.  Conversely [Write]
    returns an error only in this way. *)
Theorem Write_partial (c : aeadTunnel) (p : list byte) :
  room c ->
  (forall (k : nat) (e : error),
      k < chunk_count (length p) ->
      (forall j, j < k ->
         wfault (ReadWriter c) (length (wlog (ReadWriter c)) + j) = None) ->
      wfault (ReadWriter c) (length (wlog (ReadWriter c)) + k) = Some e ->
      exists c' oks bad,
        Write c p = Ret (k * MaxPayload, Some e, c')
        /\ wlog (ReadWriter c') = wlog (ReadWriter c) ++ all_ok oks ++ [(bad, Some e)]
        /\ length oks = k
        /\ k * MaxPayload = length (concat (firstn k (pieces p)))
        /\ k * MaxPayload < length p
        /\ (cipher.lawful (WAEAD c) ->
            oks ++ [bad] = encode (S k) (WAEAD c) (WNonce c) p))
  /\ (forall (n : nat) (e : error) (c' : aeadTunnel),
        Write c p = Ret (n, Some e, c') ->
        exists k,
          k < chunk_count (length p)
          /\ (forall j, j < k ->
                wfault (ReadWriter c) (length (wlog (ReadWriter c)) + j) = None)
          /\ wfault (ReadWriter c) (length (wlog (ReadWriter c)) + k) = Some e
          /\ n = k * MaxPayload).
Proof.
  intros Hroom.
  destruct (Write_loop_trace p (length p) 0 c Hroom (Nat.le_0_l _)
              (chunk_count_le (length p)))
    as (n0 & err & c0 & oks & Hrun & Hgood & Hpost).
  cbn [Nat.mul Nat.min] in Hrun. split.
  - intros k e Hk Hbefore Hat. destruct err as [e'|].
    + destruct Hpost as (bad & Hlog & Hn & Hlt & Hbad & Henc).
      cbn [Nat.add Nat.mul skipn] in Hn, Hlt, Henc.
      assert (Ek : length oks = k).
      { destruct (Nat.lt_trichotomy (length oks) k) as [H|[H|H]].
        - rewrite (Hbefore _ H) in Hbad. discriminate.
        - exact H.
        - rewrite (Hgood _ H) in Hat. discriminate. }
      rewrite Ek in Hbad, Hn, Henc. rewrite Hat in Hbad. injection Hbad as <-.
      exists c0, oks, bad. unfold Write. rewrite Hrun, Hn.
      split; [reflexivity|]. split; [exact Hlog|]. split; [exact Ek|].
      apply chunk_count_lt in Hk. split; [|split; [exact Hk|exact Henc]].
      unfold pieces. rewrite concat_split_pieces by lia.
      rewrite length_firstn. lia.
    + cbn [Nat.add] in Hpost. rewrite Hgood in Hat by lia. discriminate.
  - intros n e c' Hw. unfold Write in Hw. rewrite Hw in Hrun.
    injection Hrun as <- <- <-.
    destruct Hpost as (bad & _ & Hn & Hlt & Hbad & _). cbn [Nat.add] in Hn, Hlt.
    exists (length oks). split; [exact Hlt|]. split; [exact Hgood|].
    split; [exact Hbad|exact Hn].
Qed.

(** Three pieces on a connection that accepts the first chunk and refuses
    the second. *)
Lemma Write_partial_witness :
  let c := Toy.tunnel 7 (Toy.broken_pipe 1) in
  let p := repeat 1%Z (MaxPayload + MaxPayload + 5) in
  room c
  /\ 1 < chunk_count (length p)
  /\ (forall j, j < 1 ->
        wfault (ReadWriter c) (length (wlog (ReadWriter c)) + j) = None)
  /\ wfault (ReadWriter c) (length (wlog (ReadWriter c)) + 1) = Some (ErrOther 1)
  /\ exists c' oks bad,
       Write c p = Ret (1 * MaxPayload, Some (ErrOther 1), c')
       /\ wlog (ReadWriter c') = wlog (ReadWriter c) ++ all_ok oks ++ [(bad, Some (ErrOther 1))]
       /\ length oks = 1
       /\ 1 * MaxPayload = length (concat (firstn 1 (pieces p)))
       /\ 1 * MaxPayload < length p
       /\ (cipher.lawful (WAEAD c) ->
           oks ++ [bad] = encode 2 (WAEAD c) (WNonce c) p).
Proof.
  intros c p.
  assert (H1 : room c) by apply Toy_tunnel_room.
  assert (H2 : 1 < chunk_count (length p)).
  { apply chunk_count_lt. unfold p. rewrite repeat_length.
    pose proof MaxPayload_pos. lia. }
  assert (H3 : forall j, j < 1 ->
             wfault (ReadWriter c) (length (wlog (ReadWriter c)) + j) = None).
  { intros j Hj. assert (j = 0) as -> by lia. reflexivity. }
  assert (H4 : wfault (ReadWriter c) (length (wlog (ReadWriter c)) + 1)
               = Some (ErrOther 1)) by reflexivity.
  split; [exact H1|]. split; [exact H2|]. split; [exact H3|]. split; [exact H4|].
  exact (proj1 (Write_partial c p H1) 1 (ErrOther 1) H2 H3 H4).
Defined.

(** ** Reading *)

(** C6. Length decoding: the payload length is the big-endian number of
    the two decrypted bytes under the mask 0x3FFF, that is the number
    modulo 2^14, and so it lies in 0..0x3FFF whatever the two top bits
    are; and this is the length [Read] goes by: for a chunk whose opened
    length field is [h0 h1], it takes a payload of [frame_size h0 h1] bytes
    off the connection and delivers it. *)
Theorem length_decoding (b0 b1 : byte) :
  frame_size b0 b1 = Z.land (b0 * 2 ^ 8 + b1) 16383
  /\ frame_size b0 b1 = ((b0 * 256 + b1) mod 2 ^ 14)%Z
  /\ (0 <= frame_size b0 b1 <= 16383)%Z
  /\ Z.to_nat (frame_size b0 b1) <= MaxPayload
  /\ forall (c : aeadTunnel) (payload rest : list byte) (plen : nat),
       slice_len (cache c) = 0 ->
       cipher.lawful (RAEAD c) ->
       read_room c ->
       length payload = Z.to_nat (frame_size b0 b1) ->
       rx (ReadWriter c)
       = (cipher.Seal (RAEAD c) (RNonce c) [b0; b1]
          ++ cipher.Seal (RAEAD c) (increment (RNonce c)) payload) ++ rest ->
       exists c',
         Read c plen = Ret (firstn plen payload, None, c')
         /\ cache_bytes c' = skipn plen payload
         /\ rx (ReadWriter c') = rest.
Proof.
  pose proof (frame_size_bounds b0 b1) as Hb. pose proof MaxPayload_Z as HM.
  split; [|split; [|split; [|split]]]; try lia.
  - unfold frame_size. rewrite HM, Z.shiftl_mul_pow2 by lia. reflexivity.
  - apply frame_size_mod.
  - intros c payload rest plen Hc Hlaw Hroom Hlen Hrx.
    destruct (next_frame_any_header c [] (plen - 0) b0 b1 payload rest Hlaw Hroom
                (eq_sym Hlen) Hrx Hc)
      as (c' & Hrun & Hcb & _ & _ & Hrest & _).
    exists c'. rewrite Read_eq.
    destruct (Nat.ltb_spec 0 (slice_len (cache c))) as [H|_]; [lia|].
    rewrite Nat.sub_0_r in *. split; [exact Hrun|]. split; assumption.
Qed.

(** A chunk on the wire whose length field has both top bits set. *)
Lemma length_decoding_witness :
  let a := Toy.suite 7 in
  let n0 := repeat 0%Z 12 in
  let c := Toy.tunnel 7 (Toy.pipe ((cipher.Seal a n0 [192; 3]%Z
                                    ++ cipher.Seal a (increment n0) [7; 8; 9]%Z) ++ [])) in
  frame_size 192 3 = 3%Z
  /\ exists c',
       Read c 2 = Ret (firstn 2 [7; 8; 9]%Z, None, c')
       /\ cache_bytes c' = skipn 2 [7; 8; 9]%Z
       /\ rx (ReadWriter c') = [].
Proof.
  intros a n0 c. split; [reflexivity|].
  destruct (length_decoding 192 3) as (_ & _ & _ & _ & H).
  exact (H c [7; 8; 9]%Z [] 2 eq_refl (Toy_suite_lawful 7) (Toy_tunnel_read_room 7 _)
           eq_refl eq_refl).
Defined.

Lemma firstn_min_length {A} (n : nat) (l : list A) :
  firstn (Nat.min n (length l)) l = firstn n l.
Proof.
  destruct (Nat.le_ge_cases n (length l)) as [H|H].
  - rewrite Nat.min_l by assumption. reflexivity.
  - rewrite Nat.min_r by assumption. rewrite firstn_all, firstn_all2 by assumption.
    reflexivity.
Qed.

(** Whatever [next_frame] returns starts with the bytes it was given. *)
Lemma next_frame_prefix (c : aeadTunnel) (out : list byte) (space : nat)
      (o : list byte) (e : option error) (c' : aeadTunnel) :
  next_frame c out space = Ret (o, e, c') -> exists rest, o = out ++ rest.
Proof.
  unfold next_frame.
  destruct (_ <? _); [discriminate|].
  destruct (fill c _) as [[e1|] c1];
    [intros H; injection H as <- _ _; exists []; symmetry; apply app_nil_r|].
  destruct (Open c1 0 _) as [[pt1|e2] c2];
    [|intros H; injection H as <- _ _; exists []; symmetry; apply app_nil_r].
  destruct (_ <? _); [discriminate|].
  destruct (fill c2 _) as [[e3|] c3];
    [intros H; injection H as <- _ _; exists []; symmetry; apply app_nil_r|].
  destruct (Open c3 0 _) as [[pt2|e4] c4];
    [|intros H; injection H as <- _ _; exists []; symmetry; apply app_nil_r].
  intros H; injection H as <- _ _. eexists. reflexivity.
Qed.

(** C7. Leftover-cache drain order: with a non-empty cache, whatever
    [Read] returns starts with the cached bytes, in their order, as far
    as the buffer has room; and when the cache covers the whole request the
    call returns those bytes at once: only the start of the cache moves,
    connection, counters and scratch array are untouched. *)
Theorem Read_drains_cache_first (c : aeadTunnel) (plen : nat) :
  0 < slice_len (cache c) ->
  slice_len (cache c) = length (cache_bytes c) ->
  (forall out err c',
      Read c plen = Ret (out, err, c') ->
      exists rest, out = firstn plen (cache_bytes c) ++ rest)
  /\ (plen <= slice_len (cache c) ->
      Read c plen = Ret (firstn plen (cache_bytes c), None, advance c plen)
      /\ ReadWriter (advance c plen) = ReadWriter c
      /\ RNonce (advance c plen) = RNonce c
      /\ buffer (advance c plen) = buffer c
      /\ cache_bytes (advance c plen) = skipn plen (cache_bytes c)).
Proof.
  intros Hpos Hvalid. split.
  - intros out err c' Hrun. rewrite Read_eq in Hrun.
    destruct (Nat.ltb_spec 0 (slice_len (cache c))) as [_|H]; [|lia].
    cbv zeta in Hrun. rewrite Hvalid, firstn_min_length in Hrun.
    destruct (_ =? _).
    + injection Hrun as <- _ _. exists []. symmetry. apply app_nil_r.
    + apply next_frame_prefix in Hrun. exact Hrun.
  - intros Hle. split; [apply Read_cached; assumption|].
    split; [reflexivity|]. split; [reflexivity|]. split; [reflexivity|].
    apply cache_bytes_advance.
Qed.

Lemma Read_drains_cache_first_witness :
  let c := with_leftover (Toy.tunnel 7 (Toy.pipe [])) [3; 4; 5]%Z in
  0 < slice_len (cache c)
  /\ slice_len (cache c) = length (cache_bytes c)
  /\ (forall out err c',
         Read c 2 = Ret (out, err, c') ->
         exists rest, out = firstn 2 (cache_bytes c) ++ rest)
  /\ (2 <= slice_len (cache c) ->
      Read c 2 = Ret (firstn 2 (cache_bytes c), None, advance c 2)
      /\ ReadWriter (advance c 2) = ReadWriter c
      /\ RNonce (advance c 2) = RNonce c
      /\ buffer (advance c 2) = buffer c
      /\ cache_bytes (advance c 2) = skipn 2 (cache_bytes c)).
Proof.
  intros c.
  assert (H1 : 0 < slice_len (cache c)) by (cbn; lia).
  assert (H2 : slice_len (cache c) = length (cache_bytes c)) by (vm_compute; reflexivity).
  split; [exact H1|]. split; [exact H2|].
  exact (Read_drains_cache_first c 2 H1 H2).
Defined.

Lemma advance_0 (c : aeadTunnel) : advance c 0 = c.
Proof.
  destruct c as [s ra wa rn wn b [l h] k]. unfold advance, with_cache. cbn.
  rewrite Nat.add_0_r. reflexivity.
Qed.

(** C10. Zero-length read: with a non-empty cache, [Read] into an empty
    buffer returns 0 and no error and changes nothing; with an empty cache
    and a sealed chunk on the connection it takes that chunk off the
    connection, opens both parts (the read counter moves twice), keeps the
    whole payload as the new cache and returns 0 and no error. *)
Theorem Read_zero_length (c : aeadTunnel) :
  (0 < slice_len (cache c) -> Read c 0 = Ret ([], None, c))
  /\ (forall payload rest,
         slice_len (cache c) = 0 ->
         cipher.lawful (RAEAD c) ->
         read_room c ->
         length payload <= MaxPayload ->
         rx (ReadWriter c)
         = (cipher.Seal (RAEAD c) (RNonce c) (size_header (length payload))
            ++ cipher.Seal (RAEAD c) (increment (RNonce c)) payload) ++ rest ->
         exists c',
           Read c 0 = Ret ([], None, c')
           /\ cache_bytes c' = payload
           /\ slice_len (cache c') = length payload
           /\ RNonce c' = increment (increment (RNonce c))
           /\ rx (ReadWriter c') = rest).
Proof.
  split.
  - intros Hpos. rewrite (Read_cached c 0 Hpos (Nat.le_0_l _)), advance_0. reflexivity.
  - intros payload rest Hc Hlaw Hroom Hp Hrx.
    destruct (next_frame_sealed c [] (0 - 0) payload rest Hlaw Hroom Hp Hrx Hc)
      as (c' & Hrun & Hcb & Hsl & Hn & Hrest & _).
    exists c'. rewrite Read_eq.
    destruct (Nat.ltb_spec 0 (slice_len (cache c))) as [H|_]; [lia|].
    split; [exact Hrun|]. cbn [Nat.sub skipn] in Hcb, Hsl.
    rewrite Nat.sub_0_r in Hsl. repeat split; assumption.
Qed.

Lemma Read_zero_length_witness :
  let a := Toy.suite 7 in
  let n0 := repeat 0%Z 12 in
  let c1 := with_leftover (Toy.tunnel 7 (Toy.pipe [])) [3; 4; 5]%Z in
  let c2 := Toy.tunnel 7 (Toy.pipe ((cipher.Seal a n0 (size_header 3)
                                     ++ cipher.Seal a (increment n0) [7; 8; 9]%Z)
                                    ++ [1; 1]%Z)) in
  (0 < slice_len (cache c1) /\ Read c1 0 = Ret ([], None, c1))
  /\ exists c',
       Read c2 0 = Ret ([], None, c')
       /\ cache_bytes c' = [7; 8; 9]%Z
       /\ slice_len (cache c') = 3
       /\ RNonce c' = increment (increment n0)
       /\ rx (ReadWriter c') = [1; 1]%Z.
Proof.
  intros a n0 c1 c2. split.
  - assert (H : 0 < slice_len (cache c1)) by (cbn; lia).
    split; [exact H|]. exact (proj1 (Read_zero_length c1) H).
  - assert (Hp : length [7; 8; 9]%Z <= MaxPayload) by (pose proof MaxPayload_Z; cbn; lia).
    exact (proj2 (Read_zero_length c2) [7; 8; 9]%Z [1; 1]%Z eq_refl (Toy_suite_lawful 7)
             (Toy_tunnel_read_room 7 _) Hp eq_refl).
Defined.

(** ** Writer and reader together *)

(** C1. Round trip: [Write] of up to 10 * 0x3FFF bytes on a healthy
    connection returns their count and puts [sent] on the wire; a tunnel
    that opens with the AEAD the writer seals with, its read counter where
    the writer's write counter was, and that finds [sent] on its
    connection, returns through any sequence of [Read] calls, of any
    sizes, a prefix of the data, in order and without gaps; it reports no
    error before the data is complete, only the end of the stream after
    it; and as many non-empty reads as there are bytes deliver all of
    it. *)
Theorem round_trip (w : aeadTunnel) (data : list byte) :
  length data <= 10 * MaxPayload ->
  cipher.lawful (WAEAD w) ->
  room w ->
  healthy_from (ReadWriter w) (length (wlog (ReadWriter w))) ->
  exists w' sent,
    Write w data = Ret (length data, None, w')
    /\ wire (wlog (ReadWriter w')) = wire (wlog (ReadWriter w)) ++ sent
    /\ forall (r : aeadTunnel) (sizes : list nat),
         RAEAD r = WAEAD w ->
         RNonce r = WNonce w ->
         read_room r ->
         slice_len (cache r) = 0 ->
         rx (ReadWriter r) = sent ->
         rx_err (ReadWriter r) = EOF ->
         exists out err r' undelivered,
           Reads r sizes = Ret (out, err, r')
           /\ data = out ++ undelivered
           /\ (err = None \/ err = Some EOF /\ out = data)
           /\ (Forall (fun plen => 0 < plen) sizes ->
               length data <= length sizes -> out = data).
Proof.
  intros _ Hlaw Hroom Hok.
  destruct (Write_loop_healthy data (length data) 0 w Hroom Hok (Nat.le_0_l _)
              (chunk_count_le (length data)))
    as (w' & Hrun & _ & Hlog & _).
  specialize (Hlog Hlaw). rewrite Nat.sub_0_r in Hlog. cbn [Nat.mul skipn] in Hlog.
  exists w', (concat (encode (chunk_count (length data)) (WAEAD w) (WNonce w) data)).
  split; [exact Hrun|]. split; [rewrite Hlog, wire_app, wire_all_ok; reflexivity|].
  intros r sizes Ha Hn Hr Hc Hrx Heof.
  assert (Hcb : cache_bytes r = []).
  { unfold cache_bytes, slice_bytes. rewrite Hc. reflexivity. }
  assert (Hsync : in_sync (WAEAD w) r data).
  { constructor; try assumption.
    - rewrite Hcb. exact Hc.
    - rewrite Hn. exact Hrx. }
  destruct (Reads_in_sync (WAEAD w) Hlaw sizes r data Hsync)
    as (out & err & r' & und & Hreads & Hsplit & Herr & Hall).
  rewrite Hcb in Hsplit, Hall. cbn [app] in Hsplit, Hall.
  exists out, err, r', und. split; [exact Hreads|]. split; [exact Hsplit|]. split.
  - destruct Herr as [->|(-> & ->)]; [left; reflexivity|right].
    split; [reflexivity|]. rewrite Hsplit. symmetry. apply app_nil_r.
  - intros Hpos Hlen. rewrite (Hall Hpos Hlen), app_nil_r in Hsplit. symmetry. exact Hsplit.
Qed.

Lemma round_trip_witness :
  let w := Toy.tunnel 7 (Toy.pipe []) in
  let data := [1; 2; 3; 4; 5]%Z in
  length data <= 10 * MaxPayload
  /\ cipher.lawful (WAEAD w)
  /\ room w
  /\ healthy_from (ReadWriter w) (length (wlog (ReadWriter w)))
  /\ exists w' sent,
       Write w data = Ret (length data, None, w')
       /\ wire (wlog (ReadWriter w')) = wire (wlog (ReadWriter w)) ++ sent
       /\ forall (r : aeadTunnel) (sizes : list nat),
            RAEAD r = WAEAD w ->
            RNonce r = WNonce w ->
            read_room r ->
            slice_len (cache r) = 0 ->
            rx (ReadWriter r) = sent ->
            rx_err (ReadWriter r) = EOF ->
            exists out err r' undelivered,
              Reads r sizes = Ret (out, err, r')
              /\ data = out ++ undelivered
              /\ (err = None \/ err = Some EOF /\ out = data)
              /\ (Forall (fun plen => 0 < plen) sizes ->
                  length data <= length sizes -> out = data).
Proof.
  intros w data.
  assert (H1 : length data <= 10 * MaxPayload) by (pose proof MaxPayload_pos; cbn; lia).
  assert (H2 : cipher.lawful (WAEAD w)) by apply Toy_suite_lawful.
  assert (H3 : room w) by apply Toy_tunnel_room.
  assert (H4 : healthy_from (ReadWriter w) (length (wlog (ReadWriter w))))
    by (intros j _; reflexivity).
  split; [exact H1|]. split; [exact H2|]. split; [exact H3|]. split; [exact H4|].
  exact (round_trip w data H1 H2 H3 H4).
Defined.

(** The same on the wire: five bytes written, then read back in calls of
    two, zero, one and nine bytes. *)
Example round_trip_run :
  let w := Toy.tunnel 7 (Toy.pipe []) in
  match Write w [1; 2; 3; 4; 5]%Z with
  | Ret (n, None, w') =>
      n = 5
      /\ match Reads (Toy.tunnel 7 (Toy.pipe (wire (wlog (ReadWriter w'))))) [2; 0; 1; 9] with
         | Ret (out, err, _) => out = [1; 2; 3; 4; 5]%Z /\ err = Some EOF
         | _ => False
         end
  | _ => False
  end.
Proof. vm_compute. repeat split. Qed.

(** ** The counters *)

Lemma Open_counters (c : aeadTunnel) (dst : nat) (ct : list byte) :
  RNonce (snd (Open c dst ct)) = increment (RNonce c)
  /\ WNonce (snd (Open c dst ct)) = WNonce c.
Proof. unfold Open. cbn. destruct (cipher.Open _ _ _); split; reflexivity. Qed.

Lemma Seal_counters (c : aeadTunnel) (dst : nat) (pt : list byte) :
  WNonce (snd (Seal c dst pt)) = increment (WNonce c)
  /\ RNonce (snd (Seal c dst pt)) = RNonce c.
Proof. unfold Seal. cbn. split; reflexivity. Qed.

Lemma Opens_counters (calls : list (nat * list byte)) :
  forall c,
    RNonce (Opens c calls) = iter (length calls) increment (RNonce c)
    /\ WNonce (Opens c calls) = WNonce c.
Proof.
  induction calls as [|[dst ct] calls IH]; intros c; cbn [Opens length iter].
  - split; reflexivity.
  - destruct (IH (snd (Open c dst ct))) as [H1 H2].
    destruct (Open_counters c dst ct) as [H3 H4].
    rewrite H1, H2, H3, H4. split; reflexivity.
Qed.

Lemma Seals_counters (calls : list (nat * list byte)) :
  forall c,
    WNonce (Seals c calls) = iter (length calls) increment (WNonce c)
    /\ RNonce (Seals c calls) = RNonce c.
Proof.
  induction calls as [|[dst pt] calls IH]; intros c; cbn [Seals length iter].
  - split; reflexivity.
  - destruct (IH (snd (Seal c dst pt))) as [H1 H2].
    destruct (Seal_counters c dst pt) as [H3 H4].
    rewrite H1, H2, H3, H4. split; reflexivity.
Qed.

(** A counter that started at zero shows the number of increments. *)
Lemma le_value_count (k n : nat) :
  le_value (iter k increment (repeat 0%Z n))
  = (Z.of_nat k mod 2 ^ (8 * Z.of_nat n))%Z.
Proof.
  destruct (iter_increment k (repeat 0%Z n) (zeros_is_byte n)) as (_ & _ & H).
  rewrite H, le_value_zeros, repeat_length, pow_256. reflexivity.
Qed.

(** What [Shadow] returns when it returns a tunnel. *)
Lemma Shadow_tunnel (Block : Type)
      (hk : list byte -> list byte -> list byte -> nat -> list byte * option error)
      (rnd : nat -> list byte * option error)
      (p : aead Block) (rw : conn) (t : aeadTunnel) :
  Shadow hk rnd p rw = Ret (inl t) ->
  RNonce t = repeat 0%Z (NonceSize p)
  /\ WNonce t = repeat 0%Z (NonceSize p)
  /\ cache t = {| lo := 0; hi := 0 |}
  /\ length (buffer t)
     = 2 + cipher.Overhead (RAEAD t) + MaxPayload + cipher.Overhead (RAEAD t).
Proof.
  unfold Shadow, hkdfSHA1.
  destruct (io_ReadFull rw (SaltSize p)) as [[salt [e|]] rw1]; [discriminate|].
  destruct (hk (key p) salt ss_subkey (KeySize p)) as [k1 [e|]]; cbn [bind];
    [discriminate|].
  destruct (NewCipher p k1) as [b1|e]; [|discriminate].
  destruct (NewAEAD p b1) as [a1|e]; [|discriminate].
  destruct (rnd (SaltSize p)) as [salt2 [e|]]; [discriminate|].
  destruct (conn_Write rw1 salt2) as [[e|] rw2]; [discriminate|].
  destruct (hk (key p) salt2 ss_subkey (KeySize p)) as [k2 [e|]]; cbn [bind];
    [discriminate|].
  destruct (NewCipher p k2) as [b2|e]; [|discriminate].
  destruct (NewAEAD p b2) as [a2|e]; [|discriminate].
  intros H. injection H as <-. cbn. rewrite repeat_length. repeat split.
Qed.

(** [Read] moves the read counter once for each call of [Open] it makes,
    and the write counter not at all. *)
Lemma Read_counters (c : aeadTunnel) (plen : nat) (out : list byte)
      (err : option error) (c' : aeadTunnel) :
  Read c plen = Ret (out, err, c') ->
  RNonce c' = iter (Read_opens c plen) increment (RNonce c)
  /\ Read_opens c plen <= 2
  /\ WNonce c' = WNonce c.
Proof.
  intros H. split; [|split; [|apply (Read_keeps_write_side _ _ _ _ _ H)]].
  - revert H. unfold Read, Read_opens.
    set (cached := 0 <? slice_len (cache c)).
    set (n := if cached then Nat.min plen (slice_len (cache c)) else 0).
    set (c0 := if cached
               then with_cache c {| lo := lo (cache c) + n; hi := hi (cache c) |}
               else c).
    assert (E0 : RNonce c0 = RNonce c) by (unfold c0; destruct cached; reflexivity).
    rewrite <- E0. clearbody c0.
    destruct (cached && (n =? plen)).
    { intros H; injection H as E1 E2 E3; subst c'. reflexivity. }
    destruct (length (buffer c0) <? _); [discriminate|].
    pose proof (fill_keeps c0 (2 + cipher.Overhead (RAEAD c0))) as (_ & _ & _ & F1 & _).
    destruct (fill c0 _) as [[e|] c1]; cbn [snd] in F1.
    { intros H; injection H as E1 E2 E3; subst c'. exact F1. }
    pose proof (Open_counters c1 0 (firstn (2 + cipher.Overhead (RAEAD c0)) (buffer c1)))
      as (O1 & _).
    destruct (Open c1 0 _) as [[pt|e] c2]; cbn [snd] in O1;
      [|intros H; injection H as E1 E2 E3; subst c'; cbn [iter]; congruence].
    destruct (length (buffer c2) <? _); [discriminate|].
    set (size := Z.to_nat _).
    pose proof (fill_keeps c2 (size + cipher.Overhead (RAEAD c0))) as (_ & _ & _ & F2 & _).
    destruct (fill c2 _) as [[e|] c3]; cbn [snd] in F2.
    { intros H; injection H as E1 E2 E3; subst c'. cbn [iter]. congruence. }
    pose proof (Open_counters c3 0 (firstn (size + cipher.Overhead (RAEAD c0)) (buffer c3)))
      as (O2 & _).
    destruct (Open c3 0 _) as [[pt2|e] c4]; cbn [snd] in O2.
    + destruct (0 <? length _ - _); intros H; injection H as E1 E2 E3; subst c';
        proj_step; cbn [iter]; congruence.
    + intros H; injection H as E1 E2 E3; subst c'. cbn [iter]. congruence.
  - unfold Read_opens.
    destruct (_ && _); [lia|].
    destruct (fill _ _) as [[e|] c1]; [lia|].
    destruct (Open c1 0 _) as [[pt|e] c2]; [|lia].
    destruct (fill c2 _) as [[e|] c3]; lia.
Qed.

(** [write], and so [Write], moves the write counter twice for each chunk
    it hands to the connection, and the read counter not at all. *)
Lemma write_counters (c : aeadTunnel) (p : list byte) (n : nat) (e : option error)
      (c' : aeadTunnel) :
  write c p = Ret (n, e, c') ->
  RNonce c' = RNonce c
  /\ WNonce c' = iter (2 * calls_made c c') increment (WNonce c).
Proof.
  intros H. split; [apply (write_keeps_read_side _ _ _ _ _ H)|].
  apply write_shape in H. destruct H as (_ & _ & _ & k & Hk & Hn).
  unfold calls_made. rewrite Hn. f_equal. lia.
Qed.

Lemma Write_counters (c : aeadTunnel) (p : list byte) (n : nat) (e : option error)
      (c' : aeadTunnel) :
  Write c p = Ret (n, e, c') ->
  RNonce c' = RNonce c
  /\ WNonce c' = iter (2 * calls_made c c') increment (WNonce c).
Proof.
  intros H. split; [apply (Write_keeps_read_side _ _ _ _ _ H)|].
  apply Write_loop_shape in H. destruct H as (_ & _ & _ & k & Hk & Hn).
  unfold calls_made. rewrite Hn. f_equal. lia.
Qed.

(** Over a tunnel's life each counter has moved once per call of [Open],
    or of [Seal], and never back. *)
Lemma life_counters (calls : list call) :
  forall c opens seals c',
    life c calls = Ret (opens, seals, c') ->
    RNonce c' = iter opens increment (RNonce c)
    /\ WNonce c' = iter seals increment (WNonce c).
Proof.
  induction calls as [|[plen|p] calls IH]; intros c opens seals c'; cbn [life].
  - intros H; injection H as <- <- <-. split; reflexivity.
  - destruct (Read c plen) as [[[out err] c1]| |] eqn:ER; cbn [bind]; try discriminate.
    destruct (life c1 calls) as [[[o s] c2]| |] eqn:EL; cbn [bind]; try discriminate.
    intros H; injection H as <- <- <-.
    destruct (IH _ _ _ _ EL) as [H1 H2].
    destruct (Read_counters _ _ _ _ _ ER) as (H3 & _ & H4).
    rewrite H1, H2, H3, H4, iter_add. split; reflexivity.
  - destruct (Write c p) as [[[n err] c1]| |] eqn:EW; cbn [bind]; try discriminate.
    destruct (life c1 calls) as [[[o s] c2]| |] eqn:EL; cbn [bind]; try discriminate.
    intros H; injection H as <- <- <-.
    destruct (IH _ _ _ _ EL) as [H1 H2].
    destruct (Write_counters _ _ _ _ _ EW) as [H3 H4].
    rewrite H1, H2, H3, H4, iter_add. split; reflexivity.
Qed.

Lemma returned_counts (r : outcome (nat * nat * aeadTunnel)) (a b : nat)
      (c : aeadTunnel) :
  match r with Ret (a', b', _) => a' = a /\ b' = b | _ => False end ->
  r = Ret (a, b, match r with Ret (_, _, c') => c' | _ => c end).
Proof. destruct r as [[[a' b'] c']| |]; [intros [-> ->]; reflexivity | easy | easy]. Qed.

(** C2, as implemented.  Nonce counter lifecycle: both counters are zero
    in the tunnel [Shadow] returns; every call of [Open] moves the read
    counter by exactly one and leaves the write counter alone, whether the
    AEAD accepts the ciphertext or not; every call of [Seal] does the same
    for the write counter; one step adds one modulo 2^(8 * width); after
    [k] calls in one direction that direction's counter reads [k] modulo
    2^(8 * nonceSize).  No other operation moves a counter: [Read] moves
    the read counter once for each of the at most two calls of [Open] it
    makes and never the write counter; [write] and [Write] move the write
    counter twice, for the two calls of [Seal], for each chunk handed to
    the connection and never the read counter.  And nothing sets a counter
    back: through any sequence of [Read] and [Write] calls on the tunnel
    [Shadow] returned, whatever they return, the read counter shows the
    number of [Open] calls made so far and the write counter the number
    of [Seal] calls, modulo 2^(8 * nonceSize). *)
Theorem nonce_lifecycle (Block : Type)
        (hk : list byte -> list byte -> list byte -> nat -> list byte * option error)
        (rnd : nat -> list byte * option error)
        (p : aead Block) (rw : conn) (t : aeadTunnel) :
  Shadow hk rnd p rw = Ret (inl t) ->
  (RNonce t = repeat 0%Z (NonceSize p) /\ WNonce t = repeat 0%Z (NonceSize p))
  /\ (forall c dst ct,
         RNonce (snd (Open c dst ct)) = increment (RNonce c)
         /\ WNonce (snd (Open c dst ct)) = WNonce c)
  /\ (forall c dst pt,
         WNonce (snd (Seal c dst pt)) = increment (WNonce c)
         /\ RNonce (snd (Seal c dst pt)) = RNonce c)
  /\ (forall b,
         Forall is_byte b ->
         length (increment b) = length b
         /\ le_value (increment b)
            = ((le_value b + 1) mod 2 ^ (8 * Z.of_nat (length b)))%Z)
  /\ (forall opens,
         le_value (RNonce (Opens t opens))
         = (Z.of_nat (length opens) mod 2 ^ (8 * Z.of_nat (NonceSize p)))%Z
         /\ WNonce (Opens t opens) = WNonce t)
  /\ (forall seals,
         le_value (WNonce (Seals t seals))
         = (Z.of_nat (length seals) mod 2 ^ (8 * Z.of_nat (NonceSize p)))%Z
         /\ RNonce (Seals t seals) = RNonce t)
  /\ (forall c plen out err c',
         Read c plen = Ret (out, err, c') ->
         WNonce c' = WNonce c
         /\ RNonce c' = iter (Read_opens c plen) increment (RNonce c)
         /\ Read_opens c plen <= 2)
  /\ (forall c data n err c',
         Write c data = Ret (n, err, c') ->
         RNonce c' = RNonce c
         /\ WNonce c' = iter (2 * calls_made c c') increment (WNonce c))
  /\ (forall c piece n err c',
         write c piece = Ret (n, err, c') ->
         RNonce c' = RNonce c
         /\ WNonce c' = iter (2 * calls_made c c') increment (WNonce c))
  /\ (forall calls opens seals t',
         life t calls = Ret (opens, seals, t') ->
         le_value (RNonce t')
         = (Z.of_nat opens mod 2 ^ (8 * Z.of_nat (NonceSize p)))%Z
         /\ le_value (WNonce t')
            = (Z.of_nat seals mod 2 ^ (8 * Z.of_nat (NonceSize p)))%Z).
Proof.
  intros Hs. destruct (Shadow_tunnel Block hk rnd p rw t Hs) as (HR & HW & _).
  split; [split; assumption|].
  split; [apply Open_counters|]. split; [apply Seal_counters|].
  split; [|split; [|split; [|split; [|split; [|split]]]]].
  - intros b Hb. split; [apply length_increment|].
    rewrite <- pow_256. apply le_value_increment, Hb.
  - intros opens. destruct (Opens_counters opens t) as [H1 H2].
    rewrite H1, HR, le_value_count. split; [reflexivity|exact H2].
  - intros seals. destruct (Seals_counters seals t) as [H1 H2].
    rewrite H1, HW, le_value_count. split; [reflexivity|exact H2].
  - intros c plen out err c' H.
    destruct (Read_counters c plen out err c' H) as (H1 & H2 & H3).
    split; [exact H3|]. split; [exact H1|exact H2].
  - intros c data n err c' H. exact (Write_counters c data n err c' H).
  - intros c piece n err c' H. exact (write_counters c piece n err c' H).
  - intros calls opens seals t' H.
    destruct (life_counters calls t opens seals t' H) as [H1 H2].
    rewrite H1, H2, HR, HW, !le_value_count. split; reflexivity.
Qed.

Lemma returned_tunnel {E} (r : outcome (aeadTunnel + E)) (d : aeadTunnel) :
  match r with Ret (inl _) => True | _ => False end ->
  r = Ret (inl (match r with Ret (inl t) => t | _ => d end)).
Proof. destruct r as [[t|e]| |]; [reflexivity| | |]; intros []. Qed.

(** A handshake of the small suite.  Two ciphertexts the AEAD rejects:
    the read counter shows two.  And a life of three calls, a [Read] that
    meets a length field the AEAD rejects, a [Write] of one chunk, a
    [Read] at the end of the stream: one [Open], two [Seal]s. *)
Lemma nonce_lifecycle_witness :
  let rw := Toy.pipe [9; 9; 9; 9; 0; 0; 0; 0]%Z in
  let t := match Shadow Toy.hkdf Toy.rand (Toy.descriptor 32) rw with
           | Ret (inl t) => t
           | _ => Toy.tunnel 7 rw
           end in
  let calls := [call_Read 5; call_Write [1; 2; 3]%Z; call_Read 1] in
  let t' := match life t calls with Ret (_, _, t') => t' | _ => t end in
  Shadow Toy.hkdf Toy.rand (Toy.descriptor 32) rw = Ret (inl t)
  /\ RNonce t = repeat 0%Z 12
  /\ WNonce t = repeat 0%Z 12
  /\ le_value (RNonce (Opens t [(0, [0; 0; 0]%Z); (0, [1; 1; 1]%Z)])) = (2 mod 2 ^ 96)%Z
  /\ le_value (WNonce (Seals t [(0, [5]%Z); (0, []); (0, [6]%Z)])) = (3 mod 2 ^ 96)%Z
  /\ life t calls = Ret (1, 2, t')
  /\ le_value (RNonce t') = (1 mod 2 ^ 96)%Z
  /\ le_value (WNonce t') = (2 mod 2 ^ 96)%Z.
Proof.
  intros rw t calls t'.
  assert (H : Shadow Toy.hkdf Toy.rand (Toy.descriptor 32) rw = Ret (inl t)).
  { apply returned_tunnel. vm_compute. exact I. }
  assert (HL : life t calls = Ret (1, 2, t')).
  { apply returned_counts. vm_compute. split; reflexivity. }
  destruct (nonce_lifecycle (list byte) Toy.hkdf Toy.rand (Toy.descriptor 32) rw t H)
    as ((HR & HW) & _ & _ & _ & HO & HS & _ & _ & _ & HC).
  split; [exact H|]. split; [exact HR|]. split; [exact HW|].
  split; [exact (proj1 (HO [(0, [0; 0; 0]%Z); (0, [1; 1; 1]%Z)]))|].
  split; [exact (proj1 (HS [(0, [5]%Z); (0, []); (0, [6]%Z)]))|].
  split; [exact HL|].
  exact (HC calls 1 2 t' HL).
Defined.

(** C2, where specification and code part: a ciphertext the AEAD rejects
    moves the read counter all the same, in [Open] and so in [Read]. *)
Lemma rejected_Open_moves_counter :
  let c := Toy.tunnel 7 (Toy.pipe [0; 0; 0; 0]%Z) in
  RNonce c = repeat 0%Z 12
  /\ fst (Open c 0 [0; 0; 0]%Z) = inr ErrAuth
  /\ RNonce (snd (Open c 0 [0; 0; 0]%Z)) = 1%Z :: repeat 0%Z 11
  /\ match Read c 5 with
     | Ret (out, err, c') =>
         out = [] /\ err = Some ErrAuth /\ RNonce c' = 1%Z :: repeat 0%Z 11
     | _ => False
     end.
Proof. vm_compute. repeat split. Qed.

(** ** Key derivation *)

(** C4, as implemented.  KDF failure handling: when the derivation
    cannot fill the key, [hkdfSHA1] panics, and so does [Shadow] once the
    peer's salt has arrived; no error value is returned. *)
Theorem kdf_failure_panics (Block : Type)
        (hk : list byte -> list byte -> list byte -> nat -> list byte * option error)
        (rnd : nat -> list byte * option error)
        (p : aead Block) (rw : conn) (salt rest got : list byte) (e : error) :
  rx rw = salt ++ rest ->
  length salt = SaltSize p ->
  hk (key p) salt ss_subkey (KeySize p) = (got, Some e) ->
  hkdfSHA1 hk (key p) salt ss_subkey (KeySize p) = Panic
  /\ Shadow hk rnd p rw = Panic.
Proof.
  intros Hrx Hlen Hk.
  assert (Hpanic : hkdfSHA1 hk (key p) salt ss_subkey (KeySize p) = Panic)
    by (unfold hkdfSHA1; rewrite Hk; reflexivity).
  split; [exact Hpanic|].
  destruct (io_ReadFull_ok rw salt rest Hrx) as (rw' & Hread & _).
  unfold Shadow. rewrite <- Hlen, Hread, Hpanic. reflexivity.
Qed.

Lemma kdf_failure_panics_witness :
  let p := Toy.descriptor (255 * 20 + 1) in
  let rw := Toy.pipe [9; 9; 9; 9; 0]%Z in
  rx rw = [9; 9; 9; 9]%Z ++ [0]%Z
  /\ length [9; 9; 9; 9]%Z = SaltSize p
  /\ Toy.hkdf (key p) [9; 9; 9; 9]%Z ss_subkey (KeySize p)
     = (fst (Toy.hkdf (key p) [9; 9; 9; 9]%Z ss_subkey (KeySize p)), Some (ErrOther 2))
  /\ hkdfSHA1 Toy.hkdf (key p) [9; 9; 9; 9]%Z ss_subkey (KeySize p) = Panic
  /\ Shadow Toy.hkdf Toy.rand p rw = Panic.
Proof.
  intros p rw.
  assert (H3 : Toy.hkdf (key p) [9; 9; 9; 9]%Z ss_subkey (KeySize p)
               = (fst (Toy.hkdf (key p) [9; 9; 9; 9]%Z ss_subkey (KeySize p)),
                  Some (ErrOther 2))) by reflexivity.
  split; [reflexivity|]. split; [reflexivity|]. split; [exact H3|].
  exact (kdf_failure_panics (list byte) Toy.hkdf Toy.rand p rw
           [9; 9; 9; 9]%Z [0]%Z _ (ErrOther 2) eq_refl eq_refl H3).
Defined.

(** C4, where specification and code part: a key longer than the
    derivation can fill ends the handshake in a panic, not in an error
    value. *)
Lemma kdf_failure_is_no_error_result :
  let p := Toy.descriptor (255 * 20 + 1) in
  snd (Toy.hkdf (key p) [9; 9; 9; 9]%Z ss_subkey (KeySize p)) = Some (ErrOther 2)
  /\ Shadow Toy.hkdf Toy.rand p (Toy.pipe [9; 9; 9; 9]%Z) = Panic
  /\ forall e rw',
       Shadow Toy.hkdf Toy.rand p (Toy.pipe [9; 9; 9; 9]%Z) <> Ret (inr (e, rw')).
Proof.
  intros p.
  assert (H : Shadow Toy.hkdf Toy.rand p (Toy.pipe [9; 9; 9; 9]%Z) = Panic)
    by (vm_compute; reflexivity).
  split; [vm_compute; reflexivity|]. split; [exact H|].
  intros e rw'. rewrite H. discriminate.
Qed.

(** ** The two directions *)

(** C8, where the code falls short.  A [Read] into a two-byte buffer
    leaves three bytes of the chunk in the cache; a [Write] of one byte on
    the same tunnel keeps the read counter and the bounds of the cache
    and overwrites the cached bytes with the chunk it seals; the next
    [Read] returns those bytes in place of the peer's. *)
Theorem Write_overwrites_leftover :
  let sent := match Write (Toy.tunnel 7 (Toy.pipe [])) [1; 2; 3; 4; 5]%Z with
              | Ret (_, _, w') => wire (wlog (ReadWriter w'))
              | _ => []
              end in
  match Read (Toy.tunnel 7 (Toy.pipe sent)) 2 with
  | Ret (out1, err1, r1) =>
      out1 = [1; 2]%Z /\ err1 = None /\ cache_bytes r1 = [3; 4; 5]%Z
      /\ match Write r1 [9]%Z with
         | Ret (n, err2, r2) =>
             n = 1 /\ err2 = None
             /\ RNonce r2 = RNonce r1 /\ cache r2 = cache r1
             /\ cache_bytes r2 = [20; 2; 1]%Z
             /\ match Read r2 3 with
                | Ret (out3, err3, _) => out3 = [20; 2; 1]%Z /\ err3 = None
                | _ => False
                end
         | _ => False
         end
  | _ => False
  end.
Proof. vm_compute. repeat split. Qed.

(** * Further properties of the code *)

(** A result is known once it is known to be one. *)
Lemma returned_any {A} (r : outcome A) (d : A) :
  match r with Ret _ => True | _ => False end ->
  r = Ret (match r with Ret a => a | _ => d end).
Proof. destruct r; [reflexivity| |]; intros []. Qed.

(** ** Every way a read can end *)

(** [io.ReadFull] never stores more than it was asked for. *)
Lemma io_ReadFull_length (s : conn) (m : nat) :
  length (fst (fst (io_ReadFull s m))) <= m.
Proof.
  unfold io_ReadFull. destruct (Nat.eqb_spec m 0); [cbn; lia|].
  destruct (Nat.leb_spec m (length (rx s))); cbn [fst].
  - rewrite length_firstn. lia.
  - lia.
Qed.

Lemma fill_shape (c : aeadTunnel) (m : nat) :
  m <= length (buffer c) ->
  length (buffer (snd (fill c m))) = length (buffer c)
  /\ RAEAD (snd (fill c m)) = RAEAD c
  /\ RNonce (snd (fill c m)) = RNonce c
  /\ cache (snd (fill c m)) = cache c.
Proof.
  intros Hm. unfold fill. pose proof (io_ReadFull_length (ReadWriter c) m) as Hl.
  destruct (io_ReadFull (ReadWriter c) m) as [[d e] s]. cbn in *.
  rewrite length_app, length_skipn. repeat split. lia.
Qed.

Lemma Open_shape (c : aeadTunnel) (dst : nat) (ct : list byte) :
  length (buffer (snd (Open c dst ct))) = length (buffer c)
  /\ RAEAD (snd (Open c dst ct)) = RAEAD c
  /\ cache (snd (Open c dst ct)) = cache c
  /\ RNonce (snd (Open c dst ct)) = increment (RNonce c).
Proof.
  unfold Open. destruct (cipher.Open _ _ _); cbn; repeat split.
  apply length_slice_append.
Qed.

(** Every way [next_frame] can end. *)
Lemma next_frame_shape (c : aeadTunnel) (out : list byte) (space : nat) :
  match next_frame c out space with
  | Ret (o, e, c') =>
      length (buffer c') = length (buffer c)
      /\ RAEAD c' = RAEAD c
      /\ (exists rest, o = out ++ rest /\ length rest <= space)
      /\ (cache c' = cache c
          \/ hi (cache c') <= MaxPayload /\ hi (cache c') <= length (buffer c')
             /\ lo (cache c') <= hi (cache c'))
  | Panic => ~ read_room c
  | OutOfFuel => False
  end.
Proof.
  unfold next_frame.
  destruct (Nat.ltb_spec (length (buffer c)) (2 + cipher.Overhead (RAEAD c))) as [H|H].
  { unfold read_room. lia. }
  pose proof (fill_shape c (2 + cipher.Overhead (RAEAD c)) H) as (F1 & F2 & _ & F4).
  destruct (fill c _) as [e1 c1]. cbn [snd] in *.
  assert (Hnil : exists rest : list byte, out = out ++ rest /\ length rest <= space)
    by (exists []; rewrite app_nil_r; cbn; split; [reflexivity|lia]).
  destruct e1 as [e1|]; [refine (conj _ (conj _ (conj _ _))); auto|].
  pose proof (Open_shape c1 0 (firstn (2 + cipher.Overhead (RAEAD c)) (buffer c1)))
    as (O1 & O2 & O3 & _).
  destruct (Open c1 0 _) as [r2 c2]. cbn [snd] in *.
  destruct r2 as [pt|e2]; [|refine (conj _ (conj _ (conj _ _))); [congruence|congruence|exact Hnil|left; congruence]].
  set (size := Z.to_nat (frame_size (nth 0 (buffer c2) 0%Z) (nth 1 (buffer c2) 0%Z))).
  assert (Hsize : size <= MaxPayload).
  { subst size. pose proof (frame_size_bounds (nth 0 (buffer c2) 0%Z) (nth 1 (buffer c2) 0%Z)).
    pose proof MaxPayload_Z. lia. }
  destruct (Nat.ltb_spec (length (buffer c2)) (size + cipher.Overhead (RAEAD c))) as [H2|H2].
  { unfold read_room. lia. }
  pose proof (fill_shape c2 (size + cipher.Overhead (RAEAD c)) H2) as (G1 & G2 & _ & G4).
  destruct (fill c2 _) as [e3 c3]. cbn [snd] in *.
  destruct e3 as [e3|]; [refine (conj _ (conj _ (conj _ _))); [congruence|congruence|exact Hnil|left; congruence]|].
  pose proof (Open_shape c3 0 (firstn (size + cipher.Overhead (RAEAD c)) (buffer c3)))
    as (P1 & P2 & P3 & _).
  destruct (Open c3 0 _) as [r4 c4]. cbn [snd] in *.
  destruct r4 as [pt2|e4]; [|refine (conj _ (conj _ (conj _ _))); [congruence|congruence|exact Hnil|left; congruence]].
  assert (Hraw : length (firstn size (buffer c4)) = size) by (rewrite length_firstn; lia).
  rewrite Hraw.
  assert (Hrest : exists rest : list byte,
             out ++ firstn (Nat.min space size) (firstn size (buffer c4)) = out ++ rest
             /\ length rest <= space).
  { eexists. split; [reflexivity|]. rewrite length_firstn. lia. }
  destruct (Nat.ltb_spec 0 (size - Nat.min space size)) as [Hr|Hr]; cbn.
  - refine (conj _ (conj _ (conj _ _))); [congruence|congruence|exact Hrest|].
    right. repeat split; lia.
  - refine (conj _ (conj _ (conj _ _))); [congruence|congruence|exact Hrest|].
    left. congruence.
Qed.

Lemma cache_ok_advance (c : aeadTunnel) (n : nat) : cache_ok c -> cache_ok (advance c n).
Proof. unfold cache_ok, advance, slice_len. cbn. lia. Qed.

(** Every way [Read] can end. *)
Lemma Read_shape (c : aeadTunnel) (plen : nat) :
  match Read c plen with
  | Ret (out, err, c') =>
      length out <= plen
      /\ length (buffer c') = length (buffer c)
      /\ RAEAD c' = RAEAD c
      /\ (cache_ok c -> cache_ok c')
  | Panic => ~ read_room c
  | OutOfFuel => False
  end.
Proof.
  rewrite Read_eq.
  destruct (Nat.ltb_spec 0 (slice_len (cache c))) as [Hpos|Hzero]; cbv zeta.
  - destruct (Nat.eqb_spec (Nat.min plen (slice_len (cache c))) plen) as [E|E].
    + rewrite length_firstn. refine (conj _ (conj _ (conj _ _))); try reflexivity; [lia|].
      apply cache_ok_advance.
    + pose proof (next_frame_shape (advance c (Nat.min plen (slice_len (cache c))))
                    (firstn (Nat.min plen (slice_len (cache c))) (cache_bytes c))
                    (plen - Nat.min plen (slice_len (cache c)))) as Hs.
      destruct (next_frame _ _ _) as [[[o e] c']| |]; [|exact Hs|exact Hs].
      destruct Hs as (Hb & Ha & (rest & -> & Hrest) & Hc).
      refine (conj _ (conj Hb (conj Ha _))).
      * rewrite length_app, length_firstn. lia.
      * intros Hok. apply (cache_ok_advance c (Nat.min plen (slice_len (cache c)))) in Hok.
        unfold cache_ok in *. destruct Hc as [->|(H1 & H2 & H3)].
        -- rewrite Hb. exact Hok.
        -- unfold slice_len. lia.
  - pose proof (next_frame_shape c [] (plen - 0)) as Hs.
    destruct (next_frame _ _ _) as [[[o e] c']| |]; [|exact Hs|exact Hs].
    destruct Hs as (Hb & Ha & (rest & -> & Hrest) & Hc).
    refine (conj _ (conj Hb (conj Ha _))).
    * cbn [app]. lia.
    * intros Hok. unfold cache_ok in *. destruct Hc as [->|(H1 & H2 & H3)].
      -- rewrite Hb. exact Hok.
      -- unfold slice_len. lia.
Qed.

(** X1. [Read] never returns more bytes than the buffer it was given
    holds, whatever the cache, the connection and the AEAD do. *)
Theorem Read_returns_at_most_plen (c : aeadTunnel) (plen : nat)
        (out : list byte) (err : option error) (c' : aeadTunnel) :
  Read c plen = Ret (out, err, c') -> length out <= plen.
Proof.
  intros H. pose proof (Read_shape c plen) as Hs. rewrite H in Hs. apply Hs.
Qed.

Lemma Read_returns_at_most_plen_witness :
  let c := Toy.tunnel 7 (Toy.pipe (Fixture.chunk 7 (repeat 0%Z 12) [7; 8; 9]%Z)) in
  let c' := match Read c 2 with Ret (_, _, c') => c' | _ => c end in
  Read c 2 = Ret ([7; 8]%Z, None, c') /\ length [7; 8]%Z <= 2.
Proof.
  intros c c'.
  assert (H : Read c 2 = Ret ([7; 8]%Z, None, c')).
  { apply returned_with. vm_compute. split; reflexivity. }
  split; [exact H|]. exact (Read_returns_at_most_plen c 2 _ _ _ H).
Defined.

Lemma cache_ok_bytes (c : aeadTunnel) :
  cache_ok c ->
  length (cache_bytes c) = slice_len (cache c) /\ length (cache_bytes c) <= MaxPayload.
Proof.
  unfold cache_ok, cache_bytes, slice_bytes, slice_len. intros [H1 H2].
  rewrite length_firstn, length_skipn. lia.
Qed.

(** X2. The leftover cache stays inside the scratch array and never holds
    more than one payload: if the cache lies within the array and has at
    most 0x3FFF bytes before a [Read], the same is true after it, and the
    array keeps its length. *)
Theorem Read_keeps_cache_bounded (c : aeadTunnel) (plen : nat)
        (out : list byte) (err : option error) (c' : aeadTunnel) :
  cache_ok c ->
  Read c plen = Ret (out, err, c') ->
  cache_ok c'
  /\ length (buffer c') = length (buffer c)
  /\ length (cache_bytes c') = slice_len (cache c')
  /\ length (cache_bytes c') <= MaxPayload.
Proof.
  intros Hok H. pose proof (Read_shape c plen) as Hs. rewrite H in Hs.
  destruct Hs as (_ & Hb & _ & Hc). specialize (Hc Hok).
  split; [exact Hc|]. split; [exact Hb|]. apply cache_ok_bytes, Hc.
Qed.

Lemma Read_keeps_cache_bounded_witness :
  let c := Toy.tunnel 7 (Toy.pipe (Fixture.chunk 7 (repeat 0%Z 12) [7; 8; 9]%Z)) in
  let c' := match Read c 2 with Ret (_, _, c') => c' | _ => c end in
  cache_ok c
  /\ Read c 2 = Ret ([7; 8]%Z, None, c')
  /\ cache_ok c'
  /\ length (buffer c') = length (buffer c)
  /\ length (cache_bytes c') = slice_len (cache c')
  /\ length (cache_bytes c') <= MaxPayload.
Proof.
  intros c c'.
  assert (H1 : cache_ok c) by (unfold cache_ok, slice_len; cbn; lia).
  assert (H2 : Read c 2 = Ret ([7; 8]%Z, None, c')).
  { apply returned_with. vm_compute. split; reflexivity. }
  split; [exact H1|]. split; [exact H2|].
  exact (Read_keeps_cache_bounded c 2 _ _ _ H1 H2).
Defined.

(** X3. With a scratch array of the size [Shadow] allocates, [Read] never
    panics: the mask keeps every length the peer can send within the
    array; and the array is as large afterwards. *)
Theorem Read_never_panics (c : aeadTunnel) (plen : nat) :
  read_room c ->
  exists out err c', Read c plen = Ret (out, err, c') /\ read_room c'.
Proof.
  intros Hroom. pose proof (Read_shape c plen) as Hs.
  destruct (Read c plen) as [[[out err] c']| |]; [|contradiction|contradiction].
  exists out, err, c'. split; [reflexivity|].
  destruct Hs as (_ & Hb & Ha & _). unfold read_room in *. rewrite Ha, Hb. exact Hroom.
Qed.

Lemma Read_never_panics_witness :
  let c := Toy.tunnel 7 (Toy.pipe [255; 255; 255; 255; 1]%Z) in
  read_room c
  /\ exists out err c', Read c 9 = Ret (out, err, c') /\ read_room c'.
Proof.
  intros c.
  assert (H : read_room c) by apply Toy_tunnel_read_room.
  split; [exact H|]. exact (Read_never_panics c 9 H).
Defined.

(** ** Streams that end early, chunks that fail to open *)

(** [io.ReadFull] into the scratch array when the bytes are there, and
    when the stream ends first. *)
Lemma fill_full (c : aeadTunnel) (ct rest : list byte) :
  rx (ReadWriter c) = ct ++ rest ->
  exists s',
    fill c (length ct)
    = (None, with_ReadWriter (with_buffer c (ct ++ skipn (length ct) (buffer c))) s')
    /\ rx s' = rest /\ rx_err s' = rx_err (ReadWriter c)
    /\ wlog s' = wlog (ReadWriter c) /\ wfault s' = wfault (ReadWriter c).
Proof.
  intros Hrx. destruct (io_ReadFull_ok (ReadWriter c) ct rest Hrx) as (s' & E & H).
  exists s'. split; [|exact H]. unfold fill. rewrite E. reflexivity.
Qed.

Lemma fill_short (c : aeadTunnel) (m : nat) :
  length (rx (ReadWriter c)) < m ->
  fill c m
  = (Some (match rx (ReadWriter c), rx_err (ReadWriter c) with
           | _ :: _, EOF => ErrUnexpectedEOF
           | _, e => e
           end),
     with_ReadWriter
       (with_buffer c (rx (ReadWriter c) ++ skipn (length (rx (ReadWriter c))) (buffer c)))
       {| rx := []; rx_err := rx_err (ReadWriter c);
          wlog := wlog (ReadWriter c); wfault := wfault (ReadWriter c) |}).
Proof.
  intros Hm. unfold fill, io_ReadFull.
  destruct (Nat.eqb_spec m 0); [lia|].
  destruct (Nat.leb_spec m (length (rx (ReadWriter c)))); [lia|]. reflexivity.
Qed.

(** X4. A stream that ends before a whole length field has arrived: with
    an empty cache [Read] returns no bytes and the stream's error
    ([io.EOF] when nothing had arrived, [io.ErrUnexpectedEOF] when the end
    came inside the field), and it has not called [Open]: the read
    counter is where it was. *)
Theorem Read_on_truncated_length (c : aeadTunnel) (plen : nat) :
  slice_len (cache c) = 0 ->
  2 + cipher.Overhead (RAEAD c) <= length (buffer c) ->
  length (rx (ReadWriter c)) < 2 + cipher.Overhead (RAEAD c) ->
  exists c',
    Read c plen
    = Ret ([], Some (match rx (ReadWriter c), rx_err (ReadWriter c) with
                     | _ :: _, EOF => ErrUnexpectedEOF
                     | _, e => e
                     end), c')
    /\ RNonce c' = RNonce c
    /\ rx (ReadWriter c') = []
    /\ cache c' = cache c.
Proof.
  intros Hc Hbuf Hrx. rewrite Read_eq.
  destruct (Nat.ltb_spec 0 (slice_len (cache c))) as [H|_]; [lia|].
  unfold next_frame.
  destruct (Nat.ltb_spec (length (buffer c)) (2 + cipher.Overhead (RAEAD c))) as [H|_]; [lia|].
  rewrite (fill_short c _ Hrx). eexists. split; [reflexivity|]. tunnel_fields.
  repeat split.
Qed.

Lemma Read_on_truncated_length_witness :
  let c := Toy.tunnel 7 (Toy.pipe [1; 2]%Z) in
  slice_len (cache c) = 0
  /\ 2 + cipher.Overhead (RAEAD c) <= length (buffer c)
  /\ length (rx (ReadWriter c)) < 2 + cipher.Overhead (RAEAD c)
  /\ exists c',
       Read c 5 = Ret ([], Some ErrUnexpectedEOF, c')
       /\ RNonce c' = RNonce c
       /\ rx (ReadWriter c') = []
       /\ cache c' = cache c.
Proof.
  intros c.
  assert (H1 : slice_len (cache c) = 0) by reflexivity.
  assert (H2 : 2 + cipher.Overhead (RAEAD c) <= length (buffer c)).
  { pose proof (Toy_tunnel_read_room 7 (Toy.pipe [1; 2]%Z)) as H.
    unfold read_room in H. fold c in H. lia. }
  assert (H3 : length (rx (ReadWriter c)) < 2 + cipher.Overhead (RAEAD c)) by (cbn; lia).
  split; [exact H1|]. split; [exact H2|]. split; [exact H3|].
  exact (Read_on_truncated_length c 5 H1 H2 H3).
Defined.

(** X20. Bytes and error together: when the cache covers only part of the
    request and the stream ends before the next length field, [Read]
    returns the cached bytes, all of them, along with the stream's error;
    the cache is empty afterwards and [Open] was not called. *)
Theorem Read_returns_cached_bytes_with_error (c : aeadTunnel) (plen : nat) :
  0 < slice_len (cache c) ->
  slice_len (cache c) = length (cache_bytes c) ->
  slice_len (cache c) < plen ->
  2 + cipher.Overhead (RAEAD c) <= length (buffer c) ->
  length (rx (ReadWriter c)) < 2 + cipher.Overhead (RAEAD c) ->
  exists c',
    Read c plen
    = Ret (cache_bytes c,
           Some (match rx (ReadWriter c), rx_err (ReadWriter c) with
                 | _ :: _, EOF => ErrUnexpectedEOF
                 | _, e => e
                 end), c')
    /\ slice_len (cache c') = 0
    /\ RNonce c' = RNonce c.
Proof.
  intros Hpos Hvalid Hlt Hbuf Hrx. rewrite Read_eq.
  destruct (Nat.ltb_spec 0 (slice_len (cache c))) as [_|H]; [|lia].
  cbv zeta. rewrite (Nat.min_r plen (slice_len (cache c))) by lia.
  destruct (Nat.eqb_spec (slice_len (cache c)) plen) as [E|_]; [lia|].
  replace (firstn (slice_len (cache c)) (cache_bytes c)) with (cache_bytes c)
    by (rewrite Hvalid; symmetry; apply firstn_all).
  set (c0 := advance c (slice_len (cache c))).
  assert (Hbuf0 : 2 + cipher.Overhead (RAEAD c0) <= length (buffer c0)) by exact Hbuf.
  assert (Hrx0 : length (rx (ReadWriter c0)) < 2 + cipher.Overhead (RAEAD c0)) by exact Hrx.
  unfold next_frame.
  destruct (Nat.ltb_spec (length (buffer c0)) (2 + cipher.Overhead (RAEAD c0))) as [H|_];
    [lia|].
  rewrite (fill_short c0 _ Hrx0).
  eexists. split; [reflexivity|]. unfold c0, advance, slice_len. tunnel_fields.
  cbn [lo hi]. split; [lia|reflexivity].
Qed.

Lemma Read_returns_cached_bytes_with_error_witness :
  let c := with_leftover (Toy.tunnel 7 (Toy.pipe [])) [3; 4; 5]%Z in
  0 < slice_len (cache c)
  /\ slice_len (cache c) = length (cache_bytes c)
  /\ slice_len (cache c) < 5
  /\ exists c',
       Read c 5 = Ret (cache_bytes c, Some EOF, c')
       /\ slice_len (cache c') = 0
       /\ RNonce c' = RNonce c.
Proof.
  intros c.
  assert (H1 : 0 < slice_len (cache c)) by (cbn; lia).
  assert (H2 : slice_len (cache c) = length (cache_bytes c)) by (vm_compute; reflexivity).
  assert (H3 : slice_len (cache c) < 5) by (cbn; lia).
  assert (H4 : 2 + cipher.Overhead (RAEAD c) <= length (buffer c)).
  { unfold c, with_leftover. cbn [buffer with_cache with_buffer RAEAD Toy.tunnel].
    rewrite length_slice_append, repeat_length. cbn. lia. }
  assert (H5 : length (rx (ReadWriter c)) < 2 + cipher.Overhead (RAEAD c)) by (cbn; lia).
  split; [exact H1|]. split; [exact H2|]. split; [exact H3|].
  exact (Read_returns_cached_bytes_with_error c 5 H1 H2 H3 H4 H5).
Defined.

(** X6. A length field the AEAD rejects: with an empty cache [Read]
    returns the AEAD's error and no bytes, has taken exactly the field off
    the connection, and leaves the cache empty; the payload behind it is
    not read. *)
Theorem Read_rejects_forged_length (c : aeadTunnel) (plen : nat)
        (ct rest : list byte) (e : error) :
  slice_len (cache c) = 0 ->
  2 + cipher.Overhead (RAEAD c) <= length (buffer c) ->
  rx (ReadWriter c) = ct ++ rest ->
  length ct = 2 + cipher.Overhead (RAEAD c) ->
  cipher.Open (RAEAD c) (RNonce c) ct = inr e ->
  exists c',
    Read c plen = Ret ([], Some e, c')
    /\ RNonce c' = increment (RNonce c)
    /\ rx (ReadWriter c') = rest
    /\ cache c' = cache c.
Proof.
  intros Hc Hbuf Hrx Hlen Hopen. rewrite Read_eq.
  destruct (Nat.ltb_spec 0 (slice_len (cache c))) as [H|_]; [lia|].
  unfold next_frame.
  destruct (Nat.ltb_spec (length (buffer c)) (2 + cipher.Overhead (RAEAD c))) as [H|_]; [lia|].
  destruct (fill_full c ct rest Hrx) as (s' & Hfill & Hs & _).
  rewrite <- Hlen, Hfill. cbv beta iota zeta. unfold Open. tunnel_fields.
  rewrite (firstn_exact (length ct) ct _ eq_refl), Hopen. tunnel_fields.
  eexists. split; [reflexivity|]. tunnel_fields. repeat split. exact Hs.
Qed.

Lemma Read_rejects_forged_length_witness :
  let c := Toy.tunnel 7 (Toy.pipe ([0; 0; 0; 0]%Z ++ [5; 6]%Z)) in
  slice_len (cache c) = 0
  /\ 2 + cipher.Overhead (RAEAD c) <= length (buffer c)
  /\ cipher.Open (RAEAD c) (RNonce c) [0; 0; 0; 0]%Z = inr ErrAuth
  /\ exists c',
       Read c 5 = Ret ([], Some ErrAuth, c')
       /\ RNonce c' = increment (RNonce c)
       /\ rx (ReadWriter c') = [5; 6]%Z
       /\ cache c' = cache c.
Proof.
  intros c.
  assert (H1 : slice_len (cache c) = 0) by reflexivity.
  assert (H2 : 2 + cipher.Overhead (RAEAD c) <= length (buffer c)).
  { pose proof (Toy_tunnel_read_room 7 (Toy.pipe ([0; 0; 0; 0]%Z ++ [5; 6]%Z))) as H.
    unfold read_room in H. fold c in H. lia. }
  assert (H3 : cipher.Open (RAEAD c) (RNonce c) [0; 0; 0; 0]%Z = inr ErrAuth)
    by reflexivity.
  split; [exact H1|]. split; [exact H2|]. split; [exact H3|].
  exact (Read_rejects_forged_length c 5 [0; 0; 0; 0]%Z [5; 6]%Z ErrAuth
           H1 H2 eq_refl eq_refl H3).
Defined.

(** The first half of [next_frame] on a length field the AEAD accepts. *)
Lemma header_opened (c : aeadTunnel) (ct rest : list byte) (h0 h1 : byte) :
  2 + cipher.Overhead (RAEAD c) <= length (buffer c) ->
  rx (ReadWriter c) = ct ++ rest ->
  length ct = 2 + cipher.Overhead (RAEAD c) ->
  cipher.Open (RAEAD c) (RNonce c) ct = inl [h0; h1] ->
  exists c1 c2,
    fill c (2 + cipher.Overhead (RAEAD c)) = (None, c1)
    /\ Open c1 0 (firstn (2 + cipher.Overhead (RAEAD c)) (buffer c1)) = (inl [h0; h1], c2)
    /\ nth 0 (buffer c2) 0%Z = h0
    /\ nth 1 (buffer c2) 0%Z = h1
    /\ RAEAD c2 = RAEAD c
    /\ RNonce c2 = increment (RNonce c)
    /\ rx (ReadWriter c2) = rest
    /\ rx_err (ReadWriter c2) = rx_err (ReadWriter c)
    /\ cache c2 = cache c
    /\ length (buffer c2) = length (buffer c).
Proof.
  intros Hbuf Hrx Hlen Hopen.
  destruct (fill_full c ct rest Hrx) as (s' & Hfill & Hs & He & _).
  rewrite <- Hlen. eexists. eexists. split; [exact Hfill|].
  unfold Open. tunnel_fields.
  rewrite (firstn_exact (length ct) ct _ eq_refl), Hopen. tunnel_fields.
  assert (Hfit : length [h0; h1] <= length (ct ++ skipn (length ct) (buffer c))).
  { rewrite length_app, length_skipn. cbn [length]. lia. }
  rewrite (slice_append_0 _ _ Hfit).
  split; [reflexivity|]. tunnel_fields.
  repeat split; try assumption.
  rewrite length_app, length_skipn, length_app, length_skipn. cbn [length]. lia.
Qed.

(** X5. A stream that ends inside a payload: the length field has been
    opened (the read counter has moved once), the payload is short, and
    [Read] returns no bytes and the stream's error, [io.ErrUnexpectedEOF]
    when part of the payload had arrived. *)
Theorem Read_on_truncated_payload (c : aeadTunnel) (plen : nat)
        (ct rest : list byte) (h0 h1 : byte) :
  slice_len (cache c) = 0 ->
  read_room c ->
  rx (ReadWriter c) = ct ++ rest ->
  length ct = 2 + cipher.Overhead (RAEAD c) ->
  cipher.Open (RAEAD c) (RNonce c) ct = inl [h0; h1] ->
  length rest < Z.to_nat (frame_size h0 h1) + cipher.Overhead (RAEAD c) ->
  exists c',
    Read c plen
    = Ret ([], Some (match rest, rx_err (ReadWriter c) with
                     | _ :: _, EOF => ErrUnexpectedEOF
                     | _, e => e
                     end), c')
    /\ RNonce c' = increment (RNonce c)
    /\ rx (ReadWriter c') = []
    /\ cache c' = cache c.
Proof.
  intros Hc Hroom Hrx Hlen Hopen Hshort. unfold read_room in Hroom.
  destruct (header_opened c ct rest h0 h1 ltac:(lia) Hrx Hlen Hopen)
    as (c1 & c2 & F1 & O1 & N0 & N1 & HA & HN & HR & HE & HC & HL).
  pose proof (frame_size_bounds h0 h1) as Hb. pose proof MaxPayload_Z as HM.
  rewrite Read_eq.
  destruct (Nat.ltb_spec 0 (slice_len (cache c))) as [H|_]; [lia|].
  unfold next_frame.
  destruct (Nat.ltb_spec (length (buffer c)) (2 + cipher.Overhead (RAEAD c))) as [H|_]; [lia|].
  rewrite F1. cbv beta iota zeta. rewrite O1. cbv beta iota zeta. rewrite N0, N1.
  destruct (Nat.ltb_spec (length (buffer c2))
              (Z.to_nat (frame_size h0 h1) + cipher.Overhead (RAEAD c))) as [H|_]; [lia|].
  rewrite <- HR in Hshort. rewrite (fill_short c2 _ Hshort). rewrite HR, HE.
  eexists. split; [reflexivity|]. tunnel_fields. repeat split; assumption.
Qed.

Lemma Read_on_truncated_payload_witness :
  let ct := cipher.Seal (Toy.suite 7) (repeat 0%Z 12) (size_header 3) in
  let c := Toy.tunnel 7 (Toy.pipe (ct ++ [1; 2]%Z)) in
  slice_len (cache c) = 0
  /\ read_room c
  /\ length ct = 2 + cipher.Overhead (RAEAD c)
  /\ cipher.Open (RAEAD c) (RNonce c) ct = inl [0; 3]%Z
  /\ length [1; 2]%Z < Z.to_nat (frame_size 0 3) + cipher.Overhead (RAEAD c)
  /\ exists c',
       Read c 5 = Ret ([], Some ErrUnexpectedEOF, c')
       /\ RNonce c' = increment (RNonce c)
       /\ rx (ReadWriter c') = []
       /\ cache c' = cache c.
Proof.
  intros ct c.
  assert (H1 : slice_len (cache c) = 0) by reflexivity.
  assert (H2 : read_room c) by apply Toy_tunnel_read_room.
  assert (H3 : length ct = 2 + cipher.Overhead (RAEAD c)) by reflexivity.
  assert (H4 : cipher.Open (RAEAD c) (RNonce c) ct = inl [0; 3]%Z) by reflexivity.
  assert (H5 : length [1; 2]%Z < Z.to_nat (frame_size 0 3) + cipher.Overhead (RAEAD c))
    by (vm_compute; lia).
  split; [exact H1|]. split; [exact H2|]. split; [exact H3|]. split; [exact H4|].
  split; [exact H5|].
  exact (Read_on_truncated_payload c 5 ct [1; 2]%Z 0%Z 3%Z H1 H2 eq_refl H3 H4 H5).
Defined.

(** X7. A payload the AEAD rejects: the length field was genuine, the
    payload is not; [Read] returns the AEAD's error, hands none of the
    chunk's bytes to the caller and keeps none of them in the cache. *)
Theorem Read_rejects_forged_payload (c : aeadTunnel) (plen : nat)
        (ct1 ct2 rest : list byte) (h0 h1 : byte) (e : error) :
  slice_len (cache c) = 0 ->
  read_room c ->
  rx (ReadWriter c) = ct1 ++ ct2 ++ rest ->
  length ct1 = 2 + cipher.Overhead (RAEAD c) ->
  cipher.Open (RAEAD c) (RNonce c) ct1 = inl [h0; h1] ->
  length ct2 = Z.to_nat (frame_size h0 h1) + cipher.Overhead (RAEAD c) ->
  cipher.Open (RAEAD c) (increment (RNonce c)) ct2 = inr e ->
  exists c',
    Read c plen = Ret ([], Some e, c')
    /\ RNonce c' = increment (increment (RNonce c))
    /\ rx (ReadWriter c') = rest
    /\ cache c' = cache c
    /\ cache_bytes c' = [].
Proof.
  intros Hc Hroom Hrx Hlen1 Hopen1 Hlen2 Hopen2. unfold read_room in Hroom.
  destruct (header_opened c ct1 (ct2 ++ rest) h0 h1 ltac:(lia) Hrx Hlen1 Hopen1)
    as (c1 & c2 & F1 & O1 & N0 & N1 & HA & HN & HR & HE & HC & HL).
  pose proof (frame_size_bounds h0 h1) as Hb. pose proof MaxPayload_Z as HM.
  rewrite Read_eq.
  destruct (Nat.ltb_spec 0 (slice_len (cache c))) as [H|_]; [lia|].
  unfold next_frame.
  destruct (Nat.ltb_spec (length (buffer c)) (2 + cipher.Overhead (RAEAD c))) as [H|_]; [lia|].
  rewrite F1. cbv beta iota zeta. rewrite O1. cbv beta iota zeta. rewrite N0, N1.
  destruct (Nat.ltb_spec (length (buffer c2))
              (Z.to_nat (frame_size h0 h1) + cipher.Overhead (RAEAD c))) as [H|_]; [lia|].
  destruct (fill_full c2 ct2 rest HR) as (s' & Hfill & Hs & _).
  rewrite <- Hlen2, Hfill. cbv beta iota zeta. unfold Open. tunnel_fields.
  rewrite (firstn_exact (length ct2) ct2 _ eq_refl), HA, HN, Hopen2. tunnel_fields.
  eexists. split; [reflexivity|]. tunnel_fields.
  split; [rewrite HN; reflexivity|]. split; [exact Hs|]. split; [exact HC|].
  unfold cache_bytes, slice_bytes. tunnel_fields. rewrite HC, Hc. reflexivity.
Qed.

Lemma Read_rejects_forged_payload_witness :
  let ct1 := cipher.Seal (Toy.suite 7) (repeat 0%Z 12) (size_header 3) in
  let ct2 := [0; 0; 0; 0; 0]%Z in
  let c := Toy.tunnel 7 (Toy.pipe (ct1 ++ ct2 ++ [5]%Z)) in
  slice_len (cache c) = 0
  /\ read_room c
  /\ cipher.Open (RAEAD c) (RNonce c) ct1 = inl [0; 3]%Z
  /\ length ct2 = Z.to_nat (frame_size 0 3) + cipher.Overhead (RAEAD c)
  /\ cipher.Open (RAEAD c) (increment (RNonce c)) ct2 = inr ErrAuth
  /\ exists c',
       Read c 5 = Ret ([], Some ErrAuth, c')
       /\ RNonce c' = increment (increment (RNonce c))
       /\ rx (ReadWriter c') = [5]%Z
       /\ cache c' = cache c
       /\ cache_bytes c' = [].
Proof.
  intros ct1 ct2 c.
  assert (H1 : slice_len (cache c) = 0) by reflexivity.
  assert (H2 : read_room c) by apply Toy_tunnel_read_room.
  assert (H3 : cipher.Open (RAEAD c) (RNonce c) ct1 = inl [0; 3]%Z) by reflexivity.
  assert (H4 : length ct2 = Z.to_nat (frame_size 0 3) + cipher.Overhead (RAEAD c))
    by reflexivity.
  assert (H5 : cipher.Open (RAEAD c) (increment (RNonce c)) ct2 = inr ErrAuth)
    by reflexivity.
  split; [exact H1|]. split; [exact H2|]. split; [exact H3|]. split; [exact H4|].
  split; [exact H5|].
  exact (Read_rejects_forged_payload c 5 ct1 ct2 [5]%Z 0%Z 3%Z ErrAuth
           H1 H2 eq_refl eq_refl H3 H4 H5).
Defined.

(** ** Counting in the write direction *)

(** X8. [Write] seals before it writes: every call it makes on the
    connection, the one that fails included, has cost the write counter
    two steps, and the counter moves for nothing else. *)
Theorem Write_counter_accounting (c : aeadTunnel) (p : list byte) (n : nat)
        (err : option error) (c' : aeadTunnel) :
  Write c p = Ret (n, err, c') ->
  length (wlog (ReadWriter c)) <= length (wlog (ReadWriter c'))
  /\ WNonce c' = iter (2 * calls_made c c') increment (WNonce c).
Proof.
  intros H. apply Write_loop_shape in H. destruct H as (_ & _ & _ & k & Hk & Hn).
  unfold calls_made. split; [lia|]. rewrite Hn. f_equal. lia.
Qed.

Lemma Write_counter_accounting_witness :
  let c := Toy.tunnel 7 (Toy.broken_pipe 0) in
  let c' := match Write c [1; 2; 3]%Z with Ret (_, _, c') => c' | _ => c end in
  Write c [1; 2; 3]%Z = Ret (0, Some (ErrOther 1), c')
  /\ length (wlog (ReadWriter c)) <= length (wlog (ReadWriter c'))
  /\ WNonce c' = iter (2 * calls_made c c') increment (WNonce c).
Proof.
  intros c c'.
  assert (H : Write c [1; 2; 3]%Z = Ret (0, Some (ErrOther 1), c')).
  { apply returned_with. vm_compute. split; reflexivity. }
  split; [exact H|]. exact (Write_counter_accounting c [1; 2; 3]%Z _ _ _ H).
Defined.

(** X9. With room in the scratch array [Write] always returns, never
    panics; the count it returns is at most the length of its argument,
    and it is the whole length exactly when there is no error. *)
Theorem Write_count_is_honest (c : aeadTunnel) (p : list byte) :
  room c ->
  exists n err c',
    Write c p = Ret (n, err, c')
    /\ n <= length p
    /\ (err = None <-> n = length p)
    /\ room c'.
Proof.
  intros Hroom.
  destruct (Write_loop_outcome p (length p) 0 c Hroom (Nat.le_0_l _)
              (chunk_count_le (length p)))
    as (n & err & c' & oks & Hrun & Hpost).
  cbn [Nat.mul Nat.min] in Hrun. exists n, err, c'. split; [exact Hrun|].
  pose proof (Write_loop_shape p _ _ _ _ _ _ _ Hrun) as (Hb & _).
  pose proof (Write_keeps_read_side c p n err c' Hrun) as (_ & _ & _ & _ & Ha).
  assert (Hr : room c') by (unfold room in *; rewrite Ha, Hb; exact Hroom).
  destruct err as [e|].
  - destruct Hpost as (bad & _ & Hn & Hlt). cbn [Nat.add] in Hn, Hlt.
    apply chunk_count_lt in Hlt. subst n.
    split; [lia|]. split; [|exact Hr]. split; [discriminate|lia].
  - destruct Hpost as (Hn & _). subst n. split; [lia|]. split; [|exact Hr].
    split; reflexivity.
Qed.

Lemma Write_count_is_honest_witness :
  let c := Toy.tunnel 7 (Toy.broken_pipe 0) in
  room c
  /\ exists n err c',
       Write c [1; 2; 3]%Z = Ret (n, err, c')
       /\ n <= length [1; 2; 3]%Z
       /\ (err = None <-> n = length [1; 2; 3]%Z)
       /\ room c'.
Proof.
  intros c. assert (H : room c) by apply Toy_tunnel_room.
  split; [exact H|]. exact (Write_count_is_honest c [1; 2; 3]%Z H).
Defined.

Lemma encode_seal_pieces (a : cipher.AEAD) (k : nat) :
  forall nonce rest, encode k a nonce rest = seal_pieces a nonce (split_pieces k rest).
Proof.
  induction k as [|k IH]; intros nonce rest; [reflexivity|].
  cbn [encode split_pieces seal_pieces]. rewrite IH. reflexivity.
Qed.

Lemma split_pieces_sizes (k : nat) :
  forall rest,
    (k = 0 \/ (k - 1) * MaxPayload < length rest) ->
    Forall (fun q => 0 < length q <= MaxPayload) (split_pieces k rest).
Proof.
  pose proof MaxPayload_pos as HM.
  induction k as [|k IH]; intros rest Hk; cbn [split_pieces]; constructor.
  - rewrite length_firstn. destruct Hk as [Hk|Hk]; [discriminate|]. lia.
  - apply IH. rewrite length_skipn. destruct Hk as [Hk|Hk]; [discriminate|].
    destruct k as [|k']; [left; reflexivity|right].
    cbn [Nat.sub] in *. rewrite Nat.sub_0_r in *. lia.
Qed.

Lemma length_split_pieces (k : nat) : forall rest, length (split_pieces k rest) = k.
Proof. induction k as [|k IH]; intros rest; cbn [split_pieces length]; [|rewrite IH]; reflexivity. Qed.

(** X10. What [Write] puts on a healthy connection: one chunk per piece,
    in order; the pieces concatenate to the argument, none is empty and
    none is longer than 0x3FFF; consecutive seals use consecutive counter
    values. *)
Theorem Write_seals_pieces (c : aeadTunnel) (p : list byte) :
  room c ->
  healthy_from (ReadWriter c) (length (wlog (ReadWriter c))) ->
  cipher.lawful (WAEAD c) ->
  exists c',
    Write c p = Ret (length p, None, c')
    /\ wlog (ReadWriter c')
       = wlog (ReadWriter c) ++ all_ok (seal_pieces (WAEAD c) (WNonce c) (pieces p))
    /\ concat (pieces p) = p
    /\ Forall (fun q => 0 < length q <= MaxPayload) (pieces p).
Proof.
  intros Hroom Hok Hlaw.
  destruct (Write_loop_healthy p (length p) 0 c Hroom Hok (Nat.le_0_l _)
              (chunk_count_le (length p)))
    as (c' & Hrun & _ & Hlog & _).
  specialize (Hlog Hlaw). rewrite Nat.sub_0_r in Hlog. cbn [Nat.mul skipn] in Hlog.
  exists c'. split; [exact Hrun|]. split; [|split].
  - rewrite Hlog, encode_seal_pieces. reflexivity.
  - apply concat_pieces.
  - apply split_pieces_sizes.
    destruct (chunk_count (length p)) as [|k] eqn:E; [left; reflexivity|right].
    cbn [Nat.sub]. rewrite Nat.sub_0_r. apply chunk_count_lt. lia.
Qed.

Lemma Write_seals_pieces_witness :
  let c := Toy.tunnel 7 (Toy.pipe []) in
  let p := [1; 2; 3]%Z in
  room c
  /\ healthy_from (ReadWriter c) (length (wlog (ReadWriter c)))
  /\ cipher.lawful (WAEAD c)
  /\ exists c',
       Write c p = Ret (length p, None, c')
       /\ wlog (ReadWriter c')
          = wlog (ReadWriter c) ++ all_ok (seal_pieces (WAEAD c) (WNonce c) (pieces p))
       /\ concat (pieces p) = p
       /\ Forall (fun q => 0 < length q <= MaxPayload) (pieces p).
Proof.
  intros c p.
  assert (H1 : room c) by apply Toy_tunnel_room.
  assert (H2 : healthy_from (ReadWriter c) (length (wlog (ReadWriter c))))
    by (intros j _; reflexivity).
  assert (H3 : cipher.lawful (WAEAD c)) by apply Toy_suite_lawful.
  split; [exact H1|]. split; [exact H2|]. split; [exact H3|].
  exact (Write_seals_pieces c p H1 H2 H3).
Defined.

Lemma length_concat_encode (a : cipher.AEAD) :
  cipher.lawful a ->
  forall k nonce rest,
    length (concat (encode k a nonce rest))
    = Nat.min (k * MaxPayload) (length rest) + k * (2 + 2 * cipher.Overhead a).
Proof.
  intros [Hlen _]. induction k as [|k IH]; intros nonce rest; [reflexivity|].
  cbn [encode concat]. rewrite !length_app, !Hlen, IH, length_firstn, length_skipn.
  cbn [size_header length]. lia.
Qed.

(** X11. The cost of the framing: a [Write] of [L] bytes on a healthy
    connection puts [L + ceil(L / 0x3FFF) * (2 + 2 * Overhead)] bytes on
    the wire. *)
Theorem Write_wire_length (c : aeadTunnel) (p : list byte) :
  room c ->
  healthy_from (ReadWriter c) (length (wlog (ReadWriter c))) ->
  cipher.lawful (WAEAD c) ->
  exists c',
    Write c p = Ret (length p, None, c')
    /\ length (wire (wlog (ReadWriter c')))
       = length (wire (wlog (ReadWriter c)))
         + length p
         + chunk_count (length p) * (2 + 2 * cipher.Overhead (WAEAD c)).
Proof.
  intros Hroom Hok Hlaw.
  destruct (Write_loop_healthy p (length p) 0 c Hroom Hok (Nat.le_0_l _)
              (chunk_count_le (length p)))
    as (c' & Hrun & _ & Hlog & _).
  specialize (Hlog Hlaw). rewrite Nat.sub_0_r in Hlog. cbn [Nat.mul skipn] in Hlog.
  exists c'. split; [exact Hrun|].
  rewrite Hlog, wire_app, wire_all_ok, length_app, (length_concat_encode _ Hlaw).
  assert (length p <= chunk_count (length p) * MaxPayload).
  { destruct (Nat.le_gt_cases (length p) (chunk_count (length p) * MaxPayload)) as [|H];
      [assumption|]. apply chunk_count_lt in H. lia. }
  lia.
Qed.

Lemma Write_wire_length_witness :
  let c := Toy.tunnel 7 (Toy.pipe []) in
  let p := [1; 2; 3]%Z in
  room c
  /\ healthy_from (ReadWriter c) (length (wlog (ReadWriter c)))
  /\ cipher.lawful (WAEAD c)
  /\ exists c',
       Write c p = Ret (length p, None, c')
       /\ length (wire (wlog (ReadWriter c')))
          = length (wire (wlog (ReadWriter c)))
            + length p
            + chunk_count (length p) * (2 + 2 * cipher.Overhead (WAEAD c)).
Proof.
  intros c p.
  assert (H1 : room c) by apply Toy_tunnel_room.
  assert (H2 : healthy_from (ReadWriter c) (length (wlog (ReadWriter c))))
    by (intros j _; reflexivity).
  assert (H3 : cipher.lawful (WAEAD c)) by apply Toy_suite_lawful.
  split; [exact H1|]. split; [exact H2|]. split; [exact H3|].
  exact (Write_wire_length c p H1 H2 H3).
Defined.

(** ** The handshake, step by step *)

Section HandshakeFacts.

Variable Block : Type.
Variable hk : list byte -> list byte -> list byte -> nat -> list byte * option error.
Variable rnd : nat -> list byte * option error.
Variable p : aead Block.

(** [Shadow] when every collaborator succeeds. *)
Lemma Shadow_success (rw : conn) (salt rest k1 salt2 k2 : list byte) (b1 b2 : Block)
      (a1 a2 : cipher.AEAD) :
  rx rw = salt ++ rest ->
  length salt = SaltSize p ->
  hk (key p) salt ss_subkey (KeySize p) = (k1, None) ->
  NewCipher p k1 = inl b1 ->
  NewAEAD p b1 = inl a1 ->
  rnd (SaltSize p) = (salt2, None) ->
  wfault rw (length (wlog rw)) = None ->
  hk (key p) salt2 ss_subkey (KeySize p) = (k2, None) ->
  NewCipher p k2 = inl b2 ->
  NewAEAD p b2 = inl a2 ->
  exists t,
    Shadow hk rnd p rw = Ret (inl t)
    /\ RAEAD t = a1 /\ WAEAD t = a2
    /\ RNonce t = repeat 0%Z (NonceSize p) /\ WNonce t = repeat 0%Z (NonceSize p)
    /\ rx (ReadWriter t) = rest
    /\ rx_err (ReadWriter t) = rx_err rw
    /\ wlog (ReadWriter t) = wlog rw ++ [(salt2, None)]
    /\ slice_len (cache t) = 0
    /\ read_room t.
Proof.
  intros Hrx Hlen Hk1 Hc1 Ha1 Hr Hw Hk2 Hc2 Ha2.
  destruct (io_ReadFull_ok rw salt rest Hrx) as (rw' & Hread & R1 & R2 & R3 & R4).
  unfold Shadow, hkdfSHA1. rewrite <- Hlen, Hread, Hlen.
  rewrite Hk1. cbn [bind]. rewrite Hc1, Ha1, Hr.
  unfold conn_Write. rewrite R3, R4, Hw, Hk2. cbn [bind]. rewrite Hc2, Ha2.
  eexists. split; [reflexivity|]. tunnel_fields.
  repeat split; try assumption.
  unfold read_room. tunnel_fields. rewrite repeat_length. lia.
Qed.

(** X12. The handshake when every step succeeds: [Shadow] takes exactly
    the peer's salt off the connection, writes exactly its own random
    salt, in one call, and returns a tunnel that opens with the AEAD keyed
    from the peer's salt and seals with the AEAD keyed from its own; the
    cache is empty and the scratch array holds a full chunk of the read
    direction (and of the write direction when that AEAD's overhead is no
    larger). *)
Theorem Shadow_handshake (rw : conn) (salt rest k1 salt2 k2 : list byte) (b1 b2 : Block)
        (a1 a2 : cipher.AEAD) :
  rx rw = salt ++ rest ->
  length salt = SaltSize p ->
  hk (key p) salt ss_subkey (KeySize p) = (k1, None) ->
  NewCipher p k1 = inl b1 ->
  NewAEAD p b1 = inl a1 ->
  rnd (SaltSize p) = (salt2, None) ->
  wfault rw (length (wlog rw)) = None ->
  hk (key p) salt2 ss_subkey (KeySize p) = (k2, None) ->
  NewCipher p k2 = inl b2 ->
  NewAEAD p b2 = inl a2 ->
  exists t,
    Shadow hk rnd p rw = Ret (inl t)
    /\ RAEAD t = a1 /\ WAEAD t = a2
    /\ rx (ReadWriter t) = rest
    /\ wlog (ReadWriter t) = wlog rw ++ [(salt2, None)]
    /\ slice_len (cache t) = 0
    /\ read_room t
    /\ (cipher.Overhead a2 <= cipher.Overhead a1 -> room t).
Proof.
  intros Hrx Hlen Hk1 Hc1 Ha1 Hr Hw Hk2 Hc2 Ha2.
  destruct (Shadow_success rw salt rest k1 salt2 k2 b1 b2 a1 a2
              Hrx Hlen Hk1 Hc1 Ha1 Hr Hw Hk2 Hc2 Ha2)
    as (t & Hs & HA & HW & _ & _ & HR & _ & HL & HC & Hroom).
  exists t. repeat (split; [assumption|]).
  intros Hov. unfold room, read_room in *. rewrite HA in Hroom. rewrite HW. lia.
Qed.

(** X13. What [Shadow] writes, whatever it returns, tunnel or error.
    When the peer's salt has arrived, the first key, block cipher and AEAD
    were made and the random source has given its salt, [Shadow] has made
    exactly one call of the connection's [Write], with that salt and with
    the result the connection gives to that call.  When any of these
    steps fails, [Shadow] has written nothing.  So it writes at most
    once, only its salt, and only after all the steps before. *)
Theorem Shadow_sends_only_its_salt (rw : conn) (r : aeadTunnel + error * conn) :
  Shadow hk rnd p rw = Ret r ->
  (forall salt2,
      ready_to_send hk rnd p rw salt2 ->
      wlog (conn_of r) = wlog rw ++ [(salt2, wfault rw (length (wlog rw)))])
  /\ ((forall salt2, ~ ready_to_send hk rnd p rw salt2) ->
      wlog (conn_of r) = wlog rw)
  /\ (wlog (conn_of r) = wlog rw
      \/ exists salt2,
           ready_to_send hk rnd p rw salt2
           /\ wlog (conn_of r) = wlog rw ++ [(salt2, wfault rw (length (wlog rw)))]).
Proof.
  intros Hs.
  assert (Hnot : forall P : Prop,
             (forall salt2, ready_to_send hk rnd p rw salt2 -> False) ->
             wlog (conn_of r) = wlog rw ->
             (forall salt2,
                 ready_to_send hk rnd p rw salt2 ->
                 wlog (conn_of r) = wlog rw ++ [(salt2, wfault rw (length (wlog rw)))])
             /\ ((forall salt2, ~ ready_to_send hk rnd p rw salt2) ->
                 wlog (conn_of r) = wlog rw)
             /\ (wlog (conn_of r) = wlog rw \/ P)).
  { intros P Hno Hlog. split; [intros s2 Hr; destruct (Hno s2 Hr)|].
    split; [intros _; exact Hlog|left; exact Hlog]. }
  assert (Hyes : forall salt2,
             ready_to_send hk rnd p rw salt2 ->
             wlog (conn_of r) = wlog rw ++ [(salt2, wfault rw (length (wlog rw)))] ->
             (forall salt2,
                 ready_to_send hk rnd p rw salt2 ->
                 wlog (conn_of r) = wlog rw ++ [(salt2, wfault rw (length (wlog rw)))])
             /\ ((forall salt2, ~ ready_to_send hk rnd p rw salt2) ->
                 wlog (conn_of r) = wlog rw)
             /\ (wlog (conn_of r) = wlog rw
                 \/ exists salt2,
                      ready_to_send hk rnd p rw salt2
                      /\ wlog (conn_of r)
                         = wlog rw ++ [(salt2, wfault rw (length (wlog rw)))])).
  { intros s2 Hr Hlog. split; [|split].
    - intros s3 (x1 & x2 & x3 & x4 & x5 & _ & _ & _ & _ & E3).
      destruct Hr as (y1 & y2 & y3 & y4 & y5 & _ & _ & _ & _ & E2).
      rewrite E2 in E3. injection E3 as <-. exact Hlog.
    - intros Hno. destruct (Hno s2 Hr).
    - right. exists s2. split; [exact Hr|exact Hlog]. }
  revert Hs. unfold Shadow, hkdfSHA1.
  assert (Hlog : wlog (snd (io_ReadFull rw (SaltSize p))) = wlog rw
                 /\ wfault (snd (io_ReadFull rw (SaltSize p))) = wfault rw).
  { unfold io_ReadFull. destruct (_ =? _); [split; reflexivity|].
    destruct (_ <=? _); split; reflexivity. }
  destruct (io_ReadFull rw (SaltSize p)) as [[salt [e|]] rw1] eqn:E1;
    cbn [snd] in Hlog; destruct Hlog as [Hlog Hwf].
  { intros H; injection H as <-. apply Hnot; [|exact Hlog].
    intros s2 (x1 & x2 & x3 & x4 & x5 & F1 & _). rewrite E1 in F1. discriminate. }
  destruct (hk (key p) salt ss_subkey (KeySize p)) as [k1 [e|]] eqn:E2; cbn [bind];
    [discriminate|].
  destruct (NewCipher p k1) as [b1|e] eqn:E3.
  2:{ intros H; injection H as <-. apply Hnot; [|exact Hlog].
      intros s2 (x1 & x2 & x3 & x4 & x5 & F1 & F2 & F3 & _).
      rewrite E1 in F1. injection F1 as <- <-. rewrite E2 in F2. injection F2 as <-.
      rewrite E3 in F3. discriminate. }
  destruct (NewAEAD p b1) as [a1|e] eqn:E4.
  2:{ intros H; injection H as <-. apply Hnot; [|exact Hlog].
      intros s2 (x1 & x2 & x3 & x4 & x5 & F1 & F2 & F3 & F4 & _).
      rewrite E1 in F1. injection F1 as <- <-. rewrite E2 in F2. injection F2 as <-.
      rewrite E3 in F3. injection F3 as <-. rewrite E4 in F4. discriminate. }
  destruct (rnd (SaltSize p)) as [salt2 [e|]] eqn:E5.
  { intros H; injection H as <-. apply Hnot; [|exact Hlog].
    intros s2 (x1 & x2 & x3 & x4 & x5 & _ & _ & _ & _ & F5).
    rewrite E5 in F5. discriminate. }
  assert (Hready : ready_to_send hk rnd p rw salt2).
  { exists salt, rw1, k1, b1, a1. repeat split; assumption. }
  unfold conn_Write. rewrite Hwf, Hlog.
  destruct (wfault rw (length (wlog rw))) as [e|] eqn:Ew.
  { intros H; injection H as <-. apply (Hyes salt2 Hready). reflexivity. }
  destruct (hk (key p) salt2 ss_subkey (KeySize p)) as [k2 [e|]]; cbn [bind];
    [discriminate|].
  destruct (NewCipher p k2) as [b2|e];
    [|intros H; injection H as <-; apply (Hyes salt2 Hready); reflexivity].
  destruct (NewAEAD p b2) as [a2|e];
    [|intros H; injection H as <-; apply (Hyes salt2 Hready); reflexivity].
  intros H; injection H as <-. apply (Hyes salt2 Hready). reflexivity.
Qed.

(** X14. A peer that hangs up before its salt is complete: [Shadow]
    returns the stream's error ([io.EOF] or [io.ErrUnexpectedEOF]) as an
    error value, derives no key and sends nothing. *)
Theorem Shadow_on_short_salt (rw : conn) :
  length (rx rw) < SaltSize p ->
  exists rw',
    Shadow hk rnd p rw
    = Ret (inr (match rx rw, rx_err rw with
                | _ :: _, EOF => ErrUnexpectedEOF
                | _, e => e
                end, rw'))
    /\ wlog rw' = wlog rw
    /\ rx rw' = [].
Proof.
  intros Hshort. unfold Shadow, io_ReadFull.
  destruct (Nat.eqb_spec (SaltSize p) 0); [lia|].
  destruct (Nat.leb_spec (SaltSize p) (length (rx rw))); [lia|].
  eexists. split; [reflexivity|]. split; reflexivity.
Qed.


End HandshakeFacts.

Lemma Shadow_handshake_witness :
  let p := Toy.descriptor 32 in
  let rw := Toy.pipe ([9; 9; 9; 9]%Z ++ [5]%Z) in
  let k1 := fst (Toy.hkdf (key p) [9; 9; 9; 9]%Z ss_subkey (KeySize p)) in
  let salt2 := fst (Toy.rand (SaltSize p)) in
  let k2 := fst (Toy.hkdf (key p) salt2 ss_subkey (KeySize p)) in
  Toy.hkdf (key p) [9; 9; 9; 9]%Z ss_subkey (KeySize p) = (k1, None)
  /\ NewCipher p k1 = inl k1
  /\ NewAEAD p k1 = inl (Toy.suite (hd 0%Z k1))
  /\ Toy.hkdf (key p) salt2 ss_subkey (KeySize p) = (k2, None)
  /\ exists t,
       Shadow Toy.hkdf Toy.rand p rw = Ret (inl t)
       /\ RAEAD t = Toy.suite (hd 0%Z k1) /\ WAEAD t = Toy.suite (hd 0%Z k2)
       /\ rx (ReadWriter t) = [5]%Z
       /\ wlog (ReadWriter t) = wlog rw ++ [(salt2, None)]
       /\ slice_len (cache t) = 0
       /\ read_room t
       /\ (cipher.Overhead (Toy.suite (hd 0%Z k2))
           <= cipher.Overhead (Toy.suite (hd 0%Z k1)) -> room t).
Proof.
  intros p rw k1 salt2 k2.
  assert (H1 : Toy.hkdf (key p) [9; 9; 9; 9]%Z ss_subkey (KeySize p) = (k1, None))
    by reflexivity.
  assert (H2 : NewCipher p k1 = inl k1) by reflexivity.
  assert (H3 : NewAEAD p k1 = inl (Toy.suite (hd 0%Z k1))) by reflexivity.
  assert (H4 : Toy.hkdf (key p) salt2 ss_subkey (KeySize p) = (k2, None))
    by reflexivity.
  split; [exact H1|]. split; [exact H2|]. split; [exact H3|]. split; [exact H4|].
  exact (Shadow_handshake (list byte) Toy.hkdf Toy.rand p rw
           [9; 9; 9; 9]%Z [5]%Z k1 salt2 k2 k1 k2 _ _
           eq_refl eq_refl H1 H2 H3 eq_refl eq_refl H4 eq_refl eq_refl).
Defined.

(** The connection refuses the salt: one call is logged, with its
    error. *)
Lemma Shadow_sends_only_its_salt_witness :
  let p := Toy.descriptor 32 in
  let rw0 := Fixture.failing_pipe [9; 9; 9; 9; 5]%Z 0 in
  let salt2 := fst (Toy.rand (SaltSize p)) in
  let r := match Shadow Toy.hkdf Toy.rand p rw0 with
           | Ret r => r
           | _ => inr (EOF, rw0)
           end in
  Shadow Toy.hkdf Toy.rand p rw0 = Ret r
  /\ ready_to_send Toy.hkdf Toy.rand p rw0 salt2
  /\ wlog (conn_of r) = wlog rw0 ++ [(salt2, Some (ErrOther 1))].
Proof.
  intros p rw0 salt2 r.
  assert (H : Shadow Toy.hkdf Toy.rand p rw0 = Ret r).
  { apply returned_any. vm_compute. exact I. }
  assert (Hr : ready_to_send Toy.hkdf Toy.rand p rw0 salt2).
  { unfold ready_to_send. do 5 eexists.
    split; [reflexivity|]. split; [reflexivity|]. split; [reflexivity|].
    split; reflexivity. }
  split; [exact H|]. split; [exact Hr|].
  exact (proj1 (Shadow_sends_only_its_salt (list byte) Toy.hkdf Toy.rand p rw0 r H)
           salt2 Hr).
Defined.

Lemma Shadow_on_short_salt_witness :
  let p := Toy.descriptor 32 in
  let rw := Toy.pipe [9; 9]%Z in
  length (rx rw) < SaltSize p
  /\ exists rw',
       Shadow Toy.hkdf Toy.rand p rw = Ret (inr (ErrUnexpectedEOF, rw'))
       /\ wlog rw' = wlog rw
       /\ rx rw' = [].
Proof.
  intros p rw.
  assert (H : length (rx rw) < SaltSize p) by (cbn; lia).
  split; [exact H|].
  exact (Shadow_on_short_salt (list byte) Toy.hkdf Toy.rand p rw H).
Defined.


(** ** A write between two reads *)



(** ** The counter and the length field *)

(** Only the zero counter reads zero. *)
Lemma le_value_zero (b : list byte) :
  Forall is_byte b -> le_value b = 0%Z -> b = repeat 0%Z (length b).
Proof.
  induction 1 as [|x rest Hx Hrest IH]; cbn [le_value length repeat]; [reflexivity|].
  intros Hv. pose proof (le_value_bounds rest Hrest) as Hb. unfold is_byte in Hx.
  assert (x = 0%Z) by lia. assert (le_value rest = 0%Z) by lia.
  subst x. rewrite <- IH by assumption. reflexivity.
Qed.

(** X17. The counter of [n] bytes has period exactly 2^(8n): counted up
    from zero it takes a new value at every step below 2^(8n), it is zero
    again after 2^(8n) steps, and the step that wraps is the one from all
    bytes 0xFF. *)
Theorem counter_period (n : nat) :
  (forall j k,
      j < k -> (Z.of_nat k < 256 ^ Z.of_nat n)%Z ->
      iter j increment (repeat 0%Z n) <> iter k increment (repeat 0%Z n))
  /\ (forall k,
         (Z.of_nat k = 256 ^ Z.of_nat n)%Z ->
         iter k increment (repeat 0%Z n) = repeat 0%Z n)
  /\ increment (repeat 255%Z n) = repeat 0%Z n.
Proof.
  split; [|split].
  - intros j k Hjk Hk Heq. apply (f_equal le_value) in Heq.
    rewrite !le_value_count, <- pow_256 in Heq.
    rewrite !Z.mod_small in Heq by lia. lia.
  - intros k Hk.
    destruct (iter_increment k (repeat 0%Z n) (zeros_is_byte n)) as (Hb & Hl & _).
    pose proof (le_value_count k n) as Hv. rewrite <- pow_256, Hk, Z.mod_same in Hv
      by (apply Z.pow_nonzero; lia).
    rewrite (le_value_zero _ Hb Hv), Hl, repeat_length. reflexivity.
  - induction n as [|n IH]; [reflexivity|].
    cbn [repeat increment]. change ((255 + 1) mod 256)%Z with 0%Z.
    cbn [Z.eqb]. rewrite IH. reflexivity.
Qed.

Lemma counter_period_witness :
  iter 3 increment (repeat 0%Z 1) <> iter 200 increment (repeat 0%Z 1)
  /\ iter 256 increment (repeat 0%Z 1) = repeat 0%Z 1.
Proof.
  destruct (counter_period 1) as (H1 & H2 & _). split.
  - apply H1; [lia|reflexivity].
  - apply H2. reflexivity.
Defined.

(** X18. The length field [write] produces, as [Read] decodes it: two
    bytes that decode to the size modulo 2^14, and so to the size itself
    for every size [write] accepts. *)
Theorem length_field_round_trip (size : nat) :
  Forall is_byte (size_header size)
  /\ frame_size (nth 0 (size_header size) 0%Z) (nth 1 (size_header size) 0%Z)
     = (Z.of_nat size mod 16384)%Z
  /\ (size <= MaxPayload ->
      Z.to_nat (frame_size (nth 0 (size_header size) 0%Z) (nth 1 (size_header size) 0%Z))
      = size).
Proof.
  split; [|split].
  - unfold size_header. repeat constructor; apply Z.mod_pos_bound; lia.
  - rewrite frame_size_mod. cbn [size_header nth].
    rewrite Z.shiftr_div_pow2 by lia. change (2 ^ 8)%Z with 256%Z.
    set (z := Z.of_nat size).
    replace (z / 256 mod 256 * 256 + z mod 256)%Z with (z mod (256 * 256))%Z
      by (rewrite Z.rem_mul_r by lia; lia).
    apply Z.mod_mod_divide. exists 4%Z. reflexivity.
  - intros Hle. rewrite frame_size_header by assumption. apply Nat2Z.id.
Qed.

Lemma length_field_round_trip_witness :
  300 <= MaxPayload
  /\ Z.to_nat (frame_size (nth 0 (size_header 300) 0%Z) (nth 1 (size_header 300) 0%Z))
     = 300.
Proof.
  assert (H : 300 <= MaxPayload) by (pose proof MaxPayload_Z; lia).
  split; [exact H|].
  exact (proj2 (proj2 (length_field_round_trip 300)) H).
Defined.

(** ** Seal and Open as a pair *)

(** X19. [Seal] on one tunnel and [Open] on its peer, each with a [dst]
    that lies in its scratch array.  [Seal] returns its [dst] (the first
    [dw] bytes of the array) followed by the sealed text, which is longer
    than the plaintext by the overhead.  With the same AEAD and equal
    counters, [Open] given that sealed text returns its own [dst] (the
    first [dr] bytes of its array) followed by what [Seal] was given, and
    the two counters are equal again afterwards. *)
Theorem Seal_then_Open (w r : aeadTunnel) (dw dr : nat) (pt : list byte) :
  cipher.lawful (WAEAD w) ->
  RAEAD r = WAEAD w ->
  RNonce r = WNonce w ->
  dw <= length (buffer w) ->
  dr <= length (buffer r) ->
  firstn dw (fst (Seal w dw pt)) = firstn dw (buffer w)
  /\ length (fst (Seal w dw pt)) = dw + (length pt + cipher.Overhead (WAEAD w))
  /\ fst (Open r dr (skipn dw (fst (Seal w dw pt)))) = inl (firstn dr (buffer r) ++ pt)
  /\ RNonce (snd (Open r dr (skipn dw (fst (Seal w dw pt)))))
     = WNonce (snd (Seal w dw pt)).
Proof.
  intros [Hlen Hopen] Ha Hn Hdw _.
  assert (Hd : length (firstn dw (buffer w)) = dw) by (rewrite length_firstn; lia).
  assert (Hsk : skipn dw (fst (Seal w dw pt))
                = cipher.Seal (WAEAD w) (WNonce w) pt).
  { unfold Seal; cbn [fst].
    rewrite skipn_app, Hd, Nat.sub_diag, skipn_all2 by (rewrite Hd; lia).
    reflexivity. }
  rewrite Hsk. unfold Seal, Open. tunnel_fields. cbn [fst snd].
  rewrite Ha, Hn, Hopen. tunnel_fields.
  split; [|split; [|split]].
  - rewrite <- Hd at 1. rewrite firstn_app, Nat.sub_diag, firstn_all.
    cbn [firstn]. apply app_nil_r.
  - rewrite length_app, Hd, Hlen. reflexivity.
  - reflexivity.
  - rewrite Hn. reflexivity.
Qed.

Lemma Seal_then_Open_witness :
  let w := Toy.tunnel 7 (Toy.pipe []) in
  let r := Toy.tunnel 7 (Toy.pipe []) in
  cipher.lawful (WAEAD w)
  /\ 4 <= length (buffer w)
  /\ 2 <= length (buffer r)
  /\ firstn 4 (fst (Seal w 4 [1; 2; 3]%Z)) = firstn 4 (buffer w)
  /\ length (fst (Seal w 4 [1; 2; 3]%Z))
     = 4 + (length [1; 2; 3]%Z + cipher.Overhead (WAEAD w))
  /\ fst (Open r 2 (skipn 4 (fst (Seal w 4 [1; 2; 3]%Z))))
     = inl (firstn 2 (buffer r) ++ [1; 2; 3]%Z)
  /\ RNonce (snd (Open r 2 (skipn 4 (fst (Seal w 4 [1; 2; 3]%Z)))))
     = WNonce (snd (Seal w 4 [1; 2; 3]%Z)).
Proof.
  intros w r.
  assert (H : cipher.lawful (WAEAD w)) by apply Toy_suite_lawful.
  assert (Hd : 4 <= length (buffer w)).
  { unfold w, Toy.tunnel; cbn [buffer]. rewrite repeat_length.
    pose proof MaxPayload_pos. lia. }
  assert (Hr : 2 <= length (buffer r)).
  { unfold r, Toy.tunnel; cbn [buffer]. rewrite repeat_length.
    pose proof MaxPayload_pos. lia. }
  split; [exact H|]. split; [exact Hd|]. split; [exact Hr|].
  exact (Seal_then_Open w r 4 2 [1; 2; 3]%Z H eq_refl eq_refl Hd Hr).
Defined.
